(** * Verification of crawler.py: the request signer and the submission aggregator

    The development embeds [crawler.py] function by function.

    - Python [str] values are modelled by [string], read as the UTF-8 bytes of
      the text.  Concatenation, the slice [s[:-1]] applied to a string that
      ends in an ASCII character, equality, and the code-point order used by
      [SortedDict] all coincide with their byte-level counterparts, and
      [str.encode()] becomes the identity on the byte sequence.
    - Python [int] values are modelled by [Z].
    - [dict] values are association lists in insertion order with pairwise
      distinct keys, updated through [dict_set].
    - Exceptions are explicit: a computation returns an [outcome].
    - [hashlib.sha512] is modelled by an executable SHA-512 (FIPS 180-4). *)

From Stdlib Require Import ZArith List String Ascii Bool Lia PeanoNat.
From Stdlib Require Import Permutation Sorted DecimalString.
Import ListNotations.

Local Open Scope string_scope.
Local Open Scope Z_scope.

(** ** Python strings *)

(** [s[:-1]]: every character but the last; the empty string stays empty. *)
Fixpoint str_drop_last (s : string) : string :=
  match s with
  | EmptyString => EmptyString
  | String c EmptyString => EmptyString
  | String c rest => String c (str_drop_last rest)
  end.

(** [str(n)] for an [int]: decimal digits, with a leading minus sign. *)
Definition str_of_int (n : Z) : string :=
  NilZero.string_of_int (Z.to_int n).

(** The bytes of a string, as numbers below 256. *)
Definition encode (s : string) : list Z :=
  map (fun c => Z.of_N (N_of_ascii c)) (list_ascii_of_string s).

(** ** SHA-512 *)

Module SHA512.

Definition mask64 : Z := 2 ^ 64 - 1.
Definition w64 (x : Z) : Z := Z.land x mask64.
Definition add64 (x y : Z) : Z := w64 (x + y).
Definition rotr (n x : Z) : Z :=
  Z.lor (Z.shiftr x n) (w64 (Z.shiftl x (64 - n))).
Definition shr (n x : Z) : Z := Z.shiftr x n.

Definition Ch (x y z : Z) : Z :=
  Z.lxor (Z.land x y) (Z.land (Z.lxor x mask64) z).
Definition Maj (x y z : Z) : Z :=
  Z.lxor (Z.land x y) (Z.lxor (Z.land x z) (Z.land y z)).
Definition Sigma0 (x : Z) : Z :=
  Z.lxor (rotr 28 x) (Z.lxor (rotr 34 x) (rotr 39 x)).
Definition Sigma1 (x : Z) : Z :=
  Z.lxor (rotr 14 x) (Z.lxor (rotr 18 x) (rotr 41 x)).
Definition sigma0 (x : Z) : Z :=
  Z.lxor (rotr 1 x) (Z.lxor (rotr 8 x) (shr 7 x)).
Definition sigma1 (x : Z) : Z :=
  Z.lxor (rotr 19 x) (Z.lxor (rotr 61 x) (shr 6 x)).

Definition K : list Z :=
  [ 0x428a2f98d728ae22; 0x7137449123ef65cd; 0xb5c0fbcfec4d3b2f; 0xe9b5dba58189dbbc;
    0x3956c25bf348b538; 0x59f111f1b605d019; 0x923f82a4af194f9b; 0xab1c5ed5da6d8118;
    0xd807aa98a3030242; 0x12835b0145706fbe; 0x243185be4ee4b28c; 0x550c7dc3d5ffb4e2;
    0x72be5d74f27b896f; 0x80deb1fe3b1696b1; 0x9bdc06a725c71235; 0xc19bf174cf692694;
    0xe49b69c19ef14ad2; 0xefbe4786384f25e3; 0x0fc19dc68b8cd5b5; 0x240ca1cc77ac9c65;
    0x2de92c6f592b0275; 0x4a7484aa6ea6e483; 0x5cb0a9dcbd41fbd4; 0x76f988da831153b5;
    0x983e5152ee66dfab; 0xa831c66d2db43210; 0xb00327c898fb213f; 0xbf597fc7beef0ee4;
    0xc6e00bf33da88fc2; 0xd5a79147930aa725; 0x06ca6351e003826f; 0x142929670a0e6e70;
    0x27b70a8546d22ffc; 0x2e1b21385c26c926; 0x4d2c6dfc5ac42aed; 0x53380d139d95b3df;
    0x650a73548baf63de; 0x766a0abb3c77b2a8; 0x81c2c92e47edaee6; 0x92722c851482353b;
    0xa2bfe8a14cf10364; 0xa81a664bbc423001; 0xc24b8b70d0f89791; 0xc76c51a30654be30;
    0xd192e819d6ef5218; 0xd69906245565a910; 0xf40e35855771202a; 0x106aa07032bbd1b8;
    0x19a4c116b8d2d0c8; 0x1e376c085141ab53; 0x2748774cdf8eeb99; 0x34b0bcb5e19b48a8;
    0x391c0cb3c5c95a63; 0x4ed8aa4ae3418acb; 0x5b9cca4f7763e373; 0x682e6ff3d6b2b8a3;
    0x748f82ee5defb2fc; 0x78a5636f43172f60; 0x84c87814a1f0ab72; 0x8cc702081a6439ec;
    0x90befffa23631e28; 0xa4506cebde82bde9; 0xbef9a3f7b2c67915; 0xc67178f2e372532b;
    0xca273eceea26619c; 0xd186b8c721c0c207; 0xeada7dd6cde0eb1e; 0xf57d4f7fee6ed178;
    0x06f067aa72176fba; 0x0a637dc5a2c898a6; 0x113f9804bef90dae; 0x1b710b35131c471b;
    0x28db77f523047d84; 0x32caab7b40c72493; 0x3c9ebe0a15c9bebc; 0x431d67c49c100d4c;
    0x4cc5d4becb3e42b6; 0x597f299cfc657e2a; 0x5fcb6fab3ad6faec; 0x6c44198c4a475817 ].

(** The eight working variables, also the chaining value. *)
Record state : Type := mkState {
  sa : Z; sb : Z; sc : Z; sd : Z; se : Z; sf : Z; sg : Z; sh : Z }.

Definition H0 : state :=
  mkState 0x6a09e667f3bcc908 0xbb67ae8584caa73b 0x3c6ef372fe94f82b
          0xa54ff53a5f1d36f1 0x510e527fade682d1 0x9b05688c2b3e6c1f
          0x1f83d9abfb41bd6b 0x5be0cd19137e2179.

(** Padding: a 1 bit, zeros up to 112 modulo 128 bytes, then the bit length
    on 16 bytes, most significant byte first. *)
Fixpoint be_bytes (n : nat) (x : Z) : list Z :=
  match n with
  | O => []
  | S m => Z.land (Z.shiftr x (8 * Z.of_nat m)) 255 :: be_bytes m x
  end.

Definition pad (msg : list Z) : list Z :=
  let len := Z.of_nat (List.length msg) in
  msg ++ [128] ++ repeat 0 (Z.to_nat ((111 - len) mod 128))
      ++ be_bytes 16 (8 * len).

Fixpoint be_word (bs : list Z) (acc : Z) : Z :=
  match bs with
  | [] => acc
  | b :: rest => be_word rest (Z.lor (Z.shiftl acc 8) b)
  end.

(** Cut a byte list into groups of [n] bytes ([fuel] bounds the groups). *)
Fixpoint chunks (fuel n : nat) (bs : list Z) : list (list Z) :=
  match fuel with
  | O => []
  | S fuel' =>
      match bs with
      | [] => []
      | _ => firstn n bs :: chunks fuel' n (skipn n bs)
      end
  end.

Definition words_of_block (block : list Z) : list Z :=
  map (fun w => be_word w 0) (chunks 16 8 block).

(** Message schedule, kept newest word first. *)
Fixpoint extend (n : nat) (rw : list Z) : list Z :=
  match n with
  | O => rw
  | S m =>
      let w := add64 (add64 (sigma1 (nth 1 rw 0)) (nth 6 rw 0))
                     (add64 (sigma0 (nth 14 rw 0)) (nth 15 rw 0)) in
      extend m (w :: rw)
  end.

Definition schedule (block : list Z) : list Z :=
  rev (extend 64 (rev (words_of_block block))).

Definition round (s : state) (kw : Z * Z) : state :=
  let (k, w) := kw in
  let t1 := add64 (add64 (add64 (sh s) (Sigma1 (se s)))
                         (add64 (Ch (se s) (sf s) (sg s)) k)) w in
  let t2 := add64 (Sigma0 (sa s)) (Maj (sa s) (sb s) (sc s)) in
  mkState (add64 t1 t2) (sa s) (sb s) (sc s)
          (add64 (sd s) t1) (se s) (sf s) (sg s).

Definition compress (h : state) (block : list Z) : state :=
  let s := fold_left round (combine K (schedule block)) h in
  mkState (add64 (sa h) (sa s)) (add64 (sb h) (sb s))
          (add64 (sc h) (sc s)) (add64 (sd h) (sd s))
          (add64 (se h) (se s)) (add64 (sf h) (sf s))
          (add64 (sg h) (sg s)) (add64 (sh h) (sh s)).

Definition digest_state (msg : list Z) : state :=
  let p := pad msg in
  fold_left compress (chunks (S (List.length p)) 128 p) H0.

(** The 64 digest bytes. *)
Definition digest (msg : list Z) : list Z :=
  let s := digest_state msg in
  be_bytes 8 (sa s) ++ be_bytes 8 (sb s) ++ be_bytes 8 (sc s)
    ++ be_bytes 8 (sd s) ++ be_bytes 8 (se s) ++ be_bytes 8 (sf s)
    ++ be_bytes 8 (sg s) ++ be_bytes 8 (sh s).

Definition hex_digit (d : Z) : ascii :=
  match String.get (Z.to_nat (Z.land d 15)) "0123456789abcdef" with
  | Some c => c
  | None => "0"%char
  end.

Fixpoint hex_of_bytes (bs : list Z) : string :=
  match bs with
  | [] => EmptyString
  | b :: rest =>
      String (hex_digit (Z.shiftr b 4)) (String (hex_digit b) (hex_of_bytes rest))
  end.

(** [hashlib.sha512(data).hexdigest()] *)
Definition hexdigest (msg : list Z) : string := hex_of_bytes (digest msg).

End SHA512.

(** ** Exceptions and results *)

Inductive exn : Type :=
| KeyError (key : string)
| TypeError (msg : string)
| RequestError (msg : string).

(** [str(e)] *)
Definition exn_message (e : exn) : string :=
  match e with
  | KeyError key => "'" ++ key ++ "'"
  | TypeError msg => msg
  | RequestError msg => msg
  end.

Inductive outcome (A : Type) : Type :=
| Ret (a : A)
| Raise (e : exn).
Arguments Ret {A} a.
Arguments Raise {A} e.

Definition obind {A B : Type} (m : outcome A) (k : A -> outcome B) : outcome B :=
  match m with
  | Ret a => k a
  | Raise e => Raise e
  end.

Fixpoint omap {A B : Type} (f : A -> outcome B) (l : list A) : outcome (list B) :=
  match l with
  | [] => Ret []
  | x :: rest =>
      obind (f x) (fun y => obind (omap f rest) (fun ys => Ret (y :: ys)))
  end.

Fixpoint ofold {A S : Type} (f : S -> A -> outcome S) (l : list A) (s : S)
  : outcome S :=
  match l with
  | [] => Ret s
  | x :: rest => obind (f s x) (ofold f rest)
  end.

(** ** Python dictionaries

    A [dict] keeps its items in insertion order; assigning to a key that is
    present replaces the value in place. *)

Section Dict.
Context {K V : Type} (eqb : K -> K -> bool).

Definition dict : Type := list (K * V).

Fixpoint dict_get (d : dict) (k : K) : option V :=
  match d with
  | [] => None
  | (k', v) :: rest => if eqb k k' then Some v else dict_get rest k
  end.

(** [k in d] *)
Definition dict_mem (d : dict) (k : K) : bool :=
  match dict_get d k with Some _ => true | None => false end.

(** [d[k] = v] *)
Fixpoint dict_set (d : dict) (k : K) (v : V) : dict :=
  match d with
  | [] => [(k, v)]
  | (k', v') :: rest =>
      if eqb k k' then (k', v) :: rest else (k', v') :: dict_set rest k v
  end.

(** A dictionary display [{k1: v1, k2: v2, ...}]. *)
Definition dict_literal (items : list (K * V)) : dict :=
  fold_left (fun d kv => dict_set d (fst kv) (snd kv)) items [].
End Dict.

Arguments dict K V : clear implicits.

(** ** The signer *)

(** Values interpolated by [f"{key}={value}&"]: the call site passes strings
    and integers. *)
Inductive pyval : Type :=
| PStr (s : string)
| PInt (n : Z).

(** [str(value)], which is what the f-string applies. *)
Definition format_value (v : pyval) : string :=
  match v with
  | PStr s => s
  | PInt n => str_of_int n
  end.

Definition ascii_lowercase : string := "abcdefghijklmnopqrstuvwxyz".
Definition ascii_uppercase : string := "ABCDEFGHIJKLMNOPQRSTUVWXYZ".
Definition ascii_letters : string := ascii_lowercase ++ ascii_uppercase.
Definition digits : string := "0123456789".

(** [random.choice(seq)]: the generator supplies a number [r], and the
    element at position [r] below [len(seq)] is picked. *)
Definition random_choice (seq : string) (r : nat) : ascii :=
  match String.get (r mod String.length seq) seq with
  | Some c => c
  | None => "000"%char
  end.

(** The six draws of [api_signature]; [draws i] is the number delivered by
    the generator at the [i]-th call. *)
Definition rand_prefix (draws : nat -> nat) : string :=
  string_of_list_ascii
    (map (fun i => random_choice (ascii_letters ++ digits) (draws i)) (seq 0 6)).

(** [SortedDict(params)]: the keys are kept in ascending order of Python's
    string comparison, and [items()] walks them in that order. *)
Fixpoint key_insert (k : string) (ks : list string) : list string :=
  match ks with
  | [] => [k]
  | k' :: rest =>
      if String.leb k k' then k :: ks else k' :: key_insert k rest
  end.

Definition sorted_keys (ks : list string) : list string :=
  fold_right key_insert [] ks.

(** The item stored under [k], if any. *)
Definition item_of (params : dict string pyval) (k : string)
  : list (string * pyval) :=
  match dict_get String.eqb params k with
  | Some v => [(k, v)]
  | None => []
  end.

Definition SortedDict_items (params : dict string pyval)
  : list (string * pyval) :=
  flat_map (item_of params) (sorted_keys (map fst params)).

(** [sha512hex(hash_string).hexdigest()] of the source: the argument is
    encoded and hashed, the digest rendered in lowercase hexadecimal. *)
Definition sha512hex (hash_string : string) : string :=
  SHA512.hexdigest (encode hash_string).

(** ** Submission records

    The objects of the [result] array.  The script reads [verdict],
    [problem.name], [problem.rating] (absent for some problems) and
    [problem.tags]; [id] stands for the fields it copies without reading.
    The records are the well-formed ones: [verdict], [problem], [name] and
    [tags] are always present, so the [KeyError] that the script raises on a
    record lacking one of them is outside this model. *)

Record Problem : Type := mkProblem {
  name : string;
  rating : option Z;
  tags : list string }.

Record Submission : Type := mkSubmission {
  id : Z;
  verdict : string;
  problem : Problem }.

(** The decoded reply, [response.json()]: an object whose [result], when
    present, is a list (a [null] result is outside this model). *)
Record Reply : Type := mkReply {
  status : option string;
  result : option (list Submission);
  comment : option string }.

(** ** The process: standard output and the files of the working directory *)

(** What [json.dumps(value, indent=4)] is applied to. *)
Inductive document : Type :=
| DataDoc (data : list Submission)
| RatingDoc (rating : dict Z nat)
| TagsDoc (tags : dict string nat).

Record process : Type := mkProcess {
  stdout : list string;
  files : dict string document }.

Definition M (A : Type) : Type := process -> process * outcome A.

Definition mret {A : Type} (a : A) : M A := fun p => (p, Ret a).

Definition mraise {A : Type} (e : exn) : M A := fun p => (p, Raise e).

Definition mbind {A B : Type} (m : M A) (k : A -> M B) : M B :=
  fun p =>
    match m p with
    | (p', Ret a) => k a p'
    | (p', Raise e) => (p', Raise e)
    end.

Definition lift {A : Type} (o : outcome A) : M A := fun p => (p, o).

Notation "x <- m ;; k" := (mbind m (fun x => k))
  (at level 61, m at next level, right associativity).
Notation "m ;;; k" := (mbind m (fun _ => k))
  (at level 61, right associativity).

(** [print(s)] *)
Definition print (s : string) : M unit :=
  fun p => (mkProcess (stdout p ++ [s])%list (files p), Ret tt).

(** [with open(path, "w") as f: f.write(json.dumps(doc, indent=4))];
    the write is taken to succeed (an I/O error is outside this model). *)
Definition write_file (path : string) (doc : document) : M unit :=
  fun p => (mkProcess (stdout p) (dict_set String.eqb (files p) path doc), Ret tt).

(** What the process reads from outside: the clock, the random generator
    and the remote API ([requests.get(url, timeout=10)] followed by
    [response.json()], either of which may raise). *)
Record environment : Type := mkEnvironment {
  unix_timestamp : Z;
  draws : nat -> nat;
  http_get_json : string -> outcome Reply }.

Definition BASE_URL : string := "https://codeforces.com/api/".

(** ** The aggregator, statement by statement *)

(** [x["verdict"] == "OK" and "rating" in x["problem"]] *)
Definition accepted (x : Submission) : bool :=
  String.eqb (verdict x) "OK"
  && match rating (problem x) with Some _ => true | None => false end.

Definition filter_accepted (data : list Submission) : list Submission :=
  filter accepted data.

(** A [filter] whose predicate updates a store while it answers. *)
Fixpoint filter_st {A S : Type} (f : S -> A -> bool * S) (s : S) (l : list A)
  : list A * S :=
  match l with
  | [] => ([], s)
  | x :: rest =>
      let (keep, s1) := f s x in
      let (kept, s2) := filter_st f s1 rest in
      (if keep then x :: kept else kept, s2)
  end.

(** [x["problem"]["name"] not in exist_name
     and not exist_name.append(x["problem"]["name"])]:
    [append] runs only when the name is new, returns [None], and
    [not None] is [True]. *)
Definition name_is_new (exist_name : list string) (x : Submission)
  : bool * list string :=
  let n := name (problem x) in
  if negb (existsb (String.eqb n) exist_name)
  then (true, (exist_name ++ [n])%list)
  else (false, exist_name).

Definition dedup_by_name (data : list Submission) : list Submission :=
  fst (filter_st name_is_new [] data).

(** [x["problem"]["rating"]] *)
Definition rating_key (x : Submission) : outcome Z :=
  match rating (problem x) with
  | Some r => Ret r
  | None => Raise (KeyError "rating")
  end.

(** [sorted(data, key=...)]: the keys are computed once, then the items are
    put in ascending key order, items with equal keys staying in their
    original order.  An element is inserted in front of the first element
    whose key is not smaller than its own. *)
Fixpoint insert_by_key {A : Type} (kx : Z * A) (l : list (Z * A))
  : list (Z * A) :=
  match l with
  | [] => [kx]
  | ky :: rest =>
      if fst kx <=? fst ky then kx :: l else ky :: insert_by_key kx rest
  end.

Definition sort_by_key {A : Type} (l : list (Z * A)) : list (Z * A) :=
  fold_right insert_by_key [] l.

Definition sorted_by_rating (data : list Submission)
  : outcome (list Submission) :=
  obind (omap (fun x => obind (rating_key x) (fun k => Ret (k, x))) data)
        (fun keyed => Ret (map snd (sort_by_key keyed))).

(** [if k in d: d[k] += 1 else: d[k] = 1] *)
Definition count_one {K : Type} (eqb : K -> K -> bool) (d : dict K nat) (k : K)
  : dict K nat :=
  match dict_get eqb d k with
  | Some n => dict_set eqb d k (n + 1)%nat
  | None => dict_set eqb d k 1%nat
  end.

(** The loop that fills [rating]. *)
Definition count_ratings (data : list Submission) : outcome (dict Z nat) :=
  ofold (fun d x => obind (rating_key x) (fun r => Ret (count_one Z.eqb d r)))
        data [].

(** The loop that fills [tags]. *)
Definition count_tags (data : list Submission) : dict string nat :=
  fold_left (fun d x => fold_left (count_one String.eqb) (tags (problem x)) d)
            data [].

(** [parse_data(data)]; the argument is [None] or a list. *)
Definition parse_data (data : option (list Submission)) : M unit :=
  match data with
  | None => mraise (TypeError "'NoneType' object is not iterable")
  | Some data =>
      let data := filter_accepted data in
      let data := dedup_by_name data in
      data <- lift (sorted_by_rating data) ;;
      write_file "data.json" (DataDoc data) ;;;
      rating <- lift (count_ratings data) ;;
      write_file "rating.json" (RatingDoc rating) ;;;
      let tags := count_tags data in
      write_file "tags.json" (TagsDoc tags)
  end.

(** The three outputs of a run of [parse_data] started with no files. *)
Definition aggregate (data : list Submission)
  : option (list Submission * dict Z nat * dict string nat) :=
  let (p, r) := parse_data (Some data) (mkProcess [] []) in
  match r, dict_get String.eqb (files p) "data.json",
        dict_get String.eqb (files p) "rating.json",
        dict_get String.eqb (files p) "tags.json" with
  | Ret _, Some (DataDoc d), Some (RatingDoc rc), Some (TagsDoc tc) =>
      Some (d, rc, tc)
  | _, _, _, _ => None
  end.

(** ** The signer and the fetcher *)

Section Crawler.
(** [KEY] and [SECRET] are imported from the module [sensitive_info],
    which is not part of the repository. *)
Variables (KEY SECRET : string).

(** The string [api_signature] hashes. *)
Definition hash_string (rand method : string) (params : dict string pyval)
  : string :=
  let hs := rand ++ "/" ++ method ++ "?" in
  let hs := fold_left
              (fun acc kv =>
                 acc ++ fst kv ++ "=" ++ format_value (snd kv) ++ "&")
              (SortedDict_items params) hs in
  let hs := str_drop_last hs in
  hs ++ "#" ++ SECRET.

Definition api_signature (draws : nat -> nat) (method : string)
           (params : dict string pyval) : string :=
  let rand := rand_prefix draws in
  rand ++ sha512hex (hash_string rand method params).

(** The f-string of [get_user_status].  The literal is broken by a
    backslash at the end of the line: the backslash and the line break are
    dropped, the blank before it and the indentation of the next line
    stay. *)
Definition request_url (method : string) (timestamp : Z) (api_sig : string)
           (_handle : string) (_from _count : Z) : string :=
  BASE_URL ++ method ++ "?apiKey=" ++ KEY ++ "&time=" ++ str_of_int timestamp
    ++ " "
    ++ "            &apiSig=" ++ api_sig ++ "&handle=" ++ _handle
    ++ "&from=" ++ str_of_int _from ++ "&count=" ++ str_of_int _count.

(** The value of [url] in [get_user_status]. *)
Definition status_url (env : environment)
           (_handle : string) (_from _count : Z) : string :=
  let timestamp := unix_timestamp env in
  let method := "user.status" in
  let api_sig :=
    api_signature (draws env) method
      (dict_literal String.eqb
         [ ("apiKey", PStr KEY); ("handle", PStr _handle);
           ("from", PInt _from); ("count", PInt _count);
           ("time", PInt timestamp) ]) in
  request_url method timestamp api_sig _handle _from _count.

Definition get_user_status (env : environment)
           (_handle : string) (_from _count : Z)
  : M (option (list Submission)) :=
  let url := status_url env _handle _from _count in
  data <- lift (http_get_json env url) ;;
  match status data with
  | None => mraise (KeyError "status")
  | Some status =>
      if String.eqb status "FAILED" then
        match comment data with
        | None => mraise (KeyError "comment")
        | Some c => print c ;;; mret None
        end
      else
        match result data with
        | None => mraise (KeyError "result")
        | Some r => mret (Some r)
        end
  end.

(** The [__main__] block. *)
Definition main (env : environment) : M unit :=
  submission_list <- get_user_status env "LKV0429" 1 1000 ;;
  parse_data submission_list.
End Crawler.

(** ** Notions used in the statements *)

(** [sum(d.values())] *)
Definition dict_total {K : Type} (d : dict K nat) : nat :=
  fold_right (fun kv acc => (snd kv + acc)%nat) 0%nat d.

(** A counting loop over the keys [ks], one [count_one] per key. *)
Definition tally {K : Type} (eqb : K -> K -> bool) (ks : list K)
           (d : dict K nat) : dict K nat :=
  fold_left (count_one eqb) ks d.

(** How many times [k] occurs in [ks]. *)
Definition occurrences {K : Type} (eqb : K -> K -> bool) (k : K) (ks : list K)
  : nat :=
  List.length (filter (eqb k) ks).

(** The record carries the rating [r]. *)
Definition has_rating (r : Z) (x : Submission) : bool :=
  match rating (problem x) with
  | Some r' => Z.eqb r' r
  | None => false
  end.

(** The tag list of the record contains [t]. *)
Definition has_tag (t : string) (x : Submission) : bool :=
  existsb (String.eqb t) (tags (problem x)).

(** Both records are rated, the first not above the second. *)
Definition rating_le (x y : Submission) : Prop :=
  exists rx ry,
    rating (problem x) = Some rx /\ rating (problem y) = Some ry /\ rx <= ry.

(** The first occurrence of each problem name, in the words of the
    specification: a record is kept when no earlier record of the list
    bears its problem name. *)
Fixpoint first_occurrences_after (earlier l : list Submission)
  : list Submission :=
  match l with
  | [] => []
  | x :: rest =>
      let later := first_occurrences_after (earlier ++ [x])%list rest in
      if existsb (fun y => String.eqb (name (problem y)) (name (problem x)))
                 earlier
      then later else x :: later
  end.

Definition first_occurrences (l : list Submission) : list Submission :=
  first_occurrences_after [] l.

(** The canonical string, in the words of the specification: the items
    joined by [&] between [<rand>/<method>?] and [#<secret>]. *)
Definition render_param (kv : string * pyval) : string :=
  fst kv ++ "=" ++ format_value (snd kv).

Fixpoint join_amp (l : list string) : string :=
  match l with
  | [] => EmptyString
  | [s] => s
  | s :: rest => s ++ "&" ++ join_amp rest
  end.

Definition canonical_string (secret rand method : string)
           (sorted_params : list (string * pyval)) : string :=
  rand ++ "/" ++ method ++ "?"
       ++ join_amp (map render_param sorted_params) ++ "#" ++ secret.

(** Key used when reasoning about the sort; only applied to rated records. *)
Definition key_of (x : Submission) : Z :=
  match rating (problem x) with Some r => r | None => 0 end.

(** Order of the keyed items handled by the sort. *)
Definition key_le {A : Type} (p q : Z * A) : Prop := fst p <= fst q.

(** The records paired with their keys, and the sorted list read back. *)
Definition keyed (data : list Submission) : list (Z * Submission) :=
  map (fun x => (key_of x, x)) data.

Definition sort_submissions (data : list Submission) : list Submission :=
  map snd (sort_by_key (keyed data)).

(** The pair holds a record together with its own rating. *)
Definition well_keyed (p : Z * Submission) : Prop :=
  rating (problem (snd p)) = Some (fst p).

Definition problem_name (x : Submission) : string := name (problem x).

Definition rated (x : Submission) : Prop := rating (problem x) <> None.

(** The three outputs as functions of the input list. *)
Definition output_list (data : list Submission) : list Submission :=
  sort_submissions (dedup_by_name (filter_accepted data)).

Definition ratings_of (out : list Submission) : dict Z nat :=
  tally Z.eqb (map key_of out) [].

Definition tags_of (out : list Submission) : dict string nat :=
  tally String.eqb (flat_map (fun x => tags (problem x)) out) [].

(** ** Sample inputs *)

(** The three records of the worked example of the specification. *)
Definition sample_A1 : Submission :=
  mkSubmission 1 "OK" (mkProblem "A" (Some 1200) ["dp"]).
Definition sample_B : Submission :=
  mkSubmission 2 "WRONG_ANSWER" (mkProblem "B" (Some 800) ["greedy"]).
Definition sample_A2 : Submission :=
  mkSubmission 3 "OK" (mkProblem "A" (Some 1200) ["dp"]).

(** Two accepted problems of rating 1500, and an easier one submitted later. *)
Definition sample_P1 : Submission :=
  mkSubmission 11 "OK" (mkProblem "P1" (Some 1500) ["math"; "dp"]).
Definition sample_P2 : Submission :=
  mkSubmission 12 "OK" (mkProblem "P2" (Some 1500) ["dp"]).
Definition sample_P0 : Submission :=
  mkSubmission 13 "OK" (mkProblem "P0" (Some 800) ["implementation"]).

(** An accepted submission to a problem that has no rating. *)
Definition sample_unrated : Submission :=
  mkSubmission 21 "OK" (mkProblem "U" None ["math"]).

(** Order of the items of a [SortedDict]: strictly ascending keys. *)
Definition key_lt (p q : string * pyval) : Prop :=
  String.ltb (fst p) (fst q) = true.

(** A reply of the remote API that reports a failure, and a process
    environment that receives it. *)
Definition failed_reply : Reply :=
  mkReply (Some "FAILED") None (Some "wrong apiSig").

Definition failing_env : environment :=
  mkEnvironment 1700000000 (fun i => i) (fun _ => Ret failed_reply).

(** Items written one after the other, each followed by [&]. *)
Fixpoint amp_terminated (l : list string) : string :=
  match l with
  | [] => EmptyString
  | s :: rest => s ++ "&" ++ amp_terminated rest
  end.

Definition str_le (a b : string) : Prop := String.leb a b = true.
Definition str_lt (a b : string) : Prop := String.ltb a b = true.

(** A process environment whose reply carries two submissions under a
    status that is neither "OK" nor "FAILED". *)
Definition passing_env : environment :=
  mkEnvironment 1700000000 (fun i => i)
    (fun _ => Ret (mkReply (Some "PENDING") (Some [sample_P1; sample_P0]) None)).

(** Two items with the same key whose values print alike. *)
Definition same_text (a b : string * pyval) : Prop :=
  fst a = fst b /\ format_value (snd a) = format_value (snd b).

(** The mapping of the ordering example: keys given as handle, from, count. *)
Definition sample_params : dict string pyval :=
  dict_literal String.eqb
    [("handle", PStr "x"); ("from", PInt 1); ("count", PInt 2)].

(** An accepted submission whose tag list names the same tag twice. *)
Definition sample_repeated_tag : Submission :=
  mkSubmission 31 "OK" (mkProblem "R" (Some 1000) ["dp"; "dp"]).

(** A working directory that already holds two files. *)
Definition sample_process : process :=
  mkProcess []
    [("data.json", DataDoc [sample_P1]); ("notes.txt", DataDoc [sample_P0])].
(** * Properties *)

(** ** SHA-512 test vectors (FIPS 180-4) *)

Example sha512_abc :
  SHA512.hexdigest (encode "abc") =
  "ddaf35a193617abacc417349ae20413112e6fa4e89a97ea20a9eeee64b55d39a2192992a274fc1a836ba3c23a3feebbd454d4423643ce80e2a9ac94fa54ca49f".
Proof. vm_compute. reflexivity. Qed.

Example sha512_empty :
  SHA512.hexdigest (encode EmptyString) =
  "cf83e1357eefb8bdf1542850d66d8007d620e4050b5715dc83f4a921d36ce9ce47d0d13c5d85f2b0ff8318d2877eec2f63b931bd47417a81a538327af927da3e".
Proof. vm_compute. reflexivity. Qed.

Example sha512_two_blocks :
  SHA512.hexdigest (encode "abcdefghbcdefghicdefghijdefghijkefghijklfghijklmghijklmnhijklmnoijklmnopjklmnopqklmnopqrlmnopqrsmnopqrstnopqrstu") =
  "8e959b75dae313da8cf4f72814fc143f8f7779c6eb9f7fa17299aeadb6889018501d289e4900f7e4331b99dec4b5433ac7d329eeb6dd26545e96e55b874be909".
Proof. vm_compute. reflexivity. Qed.


(** ** Dictionaries *)

Section DictFacts.
Context {K : Type} (eqb : K -> K -> bool).
Hypothesis eqb_spec : forall a b, eqb a b = true <-> a = b.

Lemma eqb_refl_true k : eqb k k = true.
Proof. now apply eqb_spec. Qed.

Lemma eqb_neq_false a b : a <> b -> eqb a b = false.
Proof.
  intros Hne. destruct (eqb a b) eqn:E; [|reflexivity].
  apply eqb_spec in E. contradiction.
Qed.

Lemma dict_get_set_same {V : Type} (d : dict K V) k v :
  dict_get eqb (dict_set eqb d k v) k = Some v.
Proof.
  induction d as [|[k' v'] d IH]; simpl.
  - now rewrite eqb_refl_true.
  - destruct (eqb k k') eqn:E; simpl; rewrite E; auto.
Qed.

Lemma dict_get_set_other {V : Type} (d : dict K V) k k' v :
  k <> k' -> dict_get eqb (dict_set eqb d k v) k' = dict_get eqb d k'.
Proof.
  intros Hne. induction d as [|[k0 v0] d IH]; simpl.
  - rewrite eqb_neq_false; auto.
  - destruct (eqb k k0) eqn:E; simpl.
    + apply eqb_spec in E; subst k0.
      rewrite eqb_neq_false by congruence. reflexivity.
    + now rewrite IH.
Qed.

Lemma dict_get_none_notin {V : Type} (d : dict K V) k :
  dict_get eqb d k = None <-> ~ In k (map fst d).
Proof.
  induction d as [|[k' v'] d IH]; simpl.
  - tauto.
  - destruct (eqb k k') eqn:E.
    + apply eqb_spec in E; subst. split; [discriminate | intros H; exfalso; auto].
    + rewrite IH. split.
      * intros H [H1|H1]; [subst; now rewrite eqb_refl_true in E | auto].
      * intros H H1; auto.
Qed.

Lemma dict_set_keys {V : Type} (d : dict K V) k v :
  map fst (dict_set eqb d k v) =
  if dict_mem eqb d k then map fst d else (map fst d ++ [k])%list.
Proof.
  unfold dict_mem. induction d as [|[k' v'] d IH]; simpl; [reflexivity|].
  destruct (eqb k k') eqn:E; simpl; [reflexivity|].
  rewrite IH. now destruct (dict_get eqb d k).
Qed.

Lemma dict_set_NoDup {V : Type} (d : dict K V) k v :
  NoDup (map fst d) -> NoDup (map fst (dict_set eqb d k v)).
Proof.
  intros Hnd. rewrite dict_set_keys. unfold dict_mem.
  destruct (dict_get eqb d k) eqn:E; [assumption|].
  apply dict_get_none_notin in E.
  apply NoDup_app; [assumption | repeat constructor; auto | ].
  intros x Hx [Hk|[]]; subst; auto.
Qed.

Lemma dict_total_set_new (d : dict K nat) k v :
  dict_get eqb d k = None ->
  dict_total (dict_set eqb d k v) = (dict_total d + v)%nat.
Proof.
  induction d as [|[k' v'] d IH]; simpl; intros H.
  - lia.
  - destruct (eqb k k'); [discriminate|]. simpl. rewrite IH by assumption. lia.
Qed.

Lemma dict_total_set_old (d : dict K nat) k n v :
  dict_get eqb d k = Some n ->
  (dict_total (dict_set eqb d k v) + n = dict_total d + v)%nat.
Proof.
  induction d as [|[k' v'] d IH]; simpl; intros H.
  - discriminate.
  - destruct (eqb k k').
    + injection H as ->. simpl. lia.
    + simpl. specialize (IH H). lia.
Qed.

Lemma count_one_get_same (d : dict K nat) k :
  dict_get eqb (count_one eqb d k) k =
  Some (match dict_get eqb d k with Some n => n + 1 | None => 1 end)%nat.
Proof.
  unfold count_one. destruct (dict_get eqb d k); apply dict_get_set_same.
Qed.

Lemma count_one_get_other (d : dict K nat) k k' :
  k <> k' -> dict_get eqb (count_one eqb d k) k' = dict_get eqb d k'.
Proof.
  intros Hne. unfold count_one.
  destruct (dict_get eqb d k); now apply dict_get_set_other.
Qed.

Lemma count_one_total (d : dict K nat) k :
  dict_total (count_one eqb d k) = S (dict_total d).
Proof.
  unfold count_one. destruct (dict_get eqb d k) eqn:E.
  - pose proof (dict_total_set_old d k n (n + 1)%nat E). lia.
  - rewrite dict_total_set_new by assumption. lia.
Qed.

Lemma count_one_NoDup (d : dict K nat) k :
  NoDup (map fst d) -> NoDup (map fst (count_one eqb d k)).
Proof.
  unfold count_one. destruct (dict_get eqb d k); apply dict_set_NoDup.
Qed.

Lemma tally_get (ks : list K) (d : dict K nat) k :
  dict_get eqb (tally eqb ks d) k =
  match dict_get eqb d k with
  | Some n => Some (n + occurrences eqb k ks)%nat
  | None => if (occurrences eqb k ks =? 0)%nat then None
            else Some (occurrences eqb k ks)
  end.
Proof.
  unfold tally, occurrences. revert d.
  induction ks as [|a ks IH]; intros d; simpl.
  - destruct (dict_get eqb d k); [f_equal; lia | reflexivity].
  - rewrite IH. destruct (eqb k a) eqn:E.
    + apply eqb_spec in E; subst a. rewrite count_one_get_same. simpl.
      destruct (dict_get eqb d k); f_equal; lia.
    + assert (a <> k) by (intros ->; now rewrite eqb_refl_true in E).
      now rewrite count_one_get_other.
Qed.

Lemma tally_total (ks : list K) (d : dict K nat) :
  dict_total (tally eqb ks d) = (List.length ks + dict_total d)%nat.
Proof.
  unfold tally. revert d. induction ks as [|a ks IH]; intros d; simpl.
  - reflexivity.
  - rewrite IH, count_one_total. lia.
Qed.

Lemma tally_NoDup (ks : list K) (d : dict K nat) :
  NoDup (map fst d) -> NoDup (map fst (tally eqb ks d)).
Proof.
  unfold tally. revert d. induction ks as [|a ks IH]; intros d H; simpl.
  - assumption.
  - apply IH. now apply count_one_NoDup.
Qed.

Lemma occurrences_NoDup (k : K) (ks : list K) :
  NoDup ks -> occurrences eqb k ks = if existsb (eqb k) ks then 1%nat else 0%nat.
Proof.
  unfold occurrences. induction 1 as [|a ks Hnotin Hnd IH]; simpl.
  - reflexivity.
  - destruct (eqb k a) eqn:E; simpl.
    + apply eqb_spec in E; subst a. rewrite IH.
      destruct (existsb (eqb k) ks) eqn:Ex; [|reflexivity].
      apply existsb_exists in Ex. destruct Ex as [y [Hy Hky]].
      apply eqb_spec in Hky; subst y. contradiction.
    + exact IH.
Qed.
End DictFacts.

(** ** The stable sort *)

Section SortFacts.
Context {A : Type}.
Implicit Types (l : list (Z * A)) (kx : Z * A).

Lemma insert_by_key_perm kx l : Permutation (kx :: l) (insert_by_key kx l).
Proof.
  induction l as [|ky l IH]; simpl.
  - apply Permutation_refl.
  - destruct (fst kx <=? fst ky).
    + apply Permutation_refl.
    + eapply perm_trans; [apply perm_swap | now apply perm_skip].
Qed.

Lemma sort_by_key_perm l : Permutation l (sort_by_key l).
Proof.
  induction l as [|kx l IH]; simpl.
  - constructor.
  - eapply perm_trans; [apply perm_skip, IH | apply insert_by_key_perm].
Qed.

Lemma insert_by_key_sorted kx l :
  StronglySorted key_le l -> StronglySorted key_le (insert_by_key kx l).
Proof.
  induction 1 as [|ky l Hs IH Hall]; simpl.
  - repeat constructor.
  - destruct (fst kx <=? fst ky) eqn:E.
    + apply Z.leb_le in E. constructor.
      * now constructor.
      * constructor; [exact E|].
        eapply Forall_impl; [|exact Hall].
        intros q Hq. unfold key_le in *. lia.
    + apply Z.leb_gt in E. constructor; [exact IH|].
      eapply Permutation_Forall; [apply insert_by_key_perm|].
      constructor; [unfold key_le; lia | exact Hall].
Qed.

Lemma sort_by_key_sorted l : StronglySorted key_le (sort_by_key l).
Proof.
  induction l as [|kx l IH]; simpl.
  - constructor.
  - now apply insert_by_key_sorted.
Qed.

(** Stability: the items of any one key keep their order. *)
Lemma insert_by_key_stable kx l (k : Z) :
  filter (fun p => fst p =? k) (insert_by_key kx l) =
  filter (fun p => fst p =? k) (kx :: l).
Proof.
  induction l as [|ky l IH]; [reflexivity|].
  cbn [insert_by_key]. destruct (fst kx <=? fst ky) eqn:E; [reflexivity|].
  apply Z.leb_gt in E.
  cbn [filter] in *. rewrite IH.
  destruct (fst kx =? k) eqn:E1, (fst ky =? k) eqn:E2; try reflexivity.
  apply Z.eqb_eq in E1, E2. lia.
Qed.

Lemma sort_by_key_stable l (k : Z) :
  filter (fun p => fst p =? k) (sort_by_key l) =
  filter (fun p => fst p =? k) l.
Proof.
  induction l as [|kx l IH]; [reflexivity|].
  cbn [sort_by_key fold_right]. fold (sort_by_key l).
  rewrite insert_by_key_stable. cbn [filter]. now rewrite IH.
Qed.

(** A list already in order is returned as it is. *)
Lemma sort_by_key_sorted_id l : StronglySorted key_le l -> sort_by_key l = l.
Proof.
  induction 1 as [|kx l Hs IH Hall]; [reflexivity|].
  cbn [sort_by_key fold_right]. fold (sort_by_key l). rewrite IH.
  destruct l as [|ky l]; [reflexivity|].
  cbn [insert_by_key]. inversion Hall as [|? ? Hle _]; subst.
  unfold key_le in Hle. apply Z.leb_le in Hle. now rewrite Hle.
Qed.
(** The result does not depend on how the sort proceeds: two ascending
    lists in which the items of every key come in the same order are the
    same list.  Any stable sort therefore returns what [sort_by_key]
    returns. *)
Lemma stable_sorted_unique l1 : forall l2,
  StronglySorted key_le l1 -> StronglySorted key_le l2 ->
  (forall k, filter (fun p => fst p =? k) l1 = filter (fun p => fst p =? k) l2) ->
  l1 = l2.
Proof.
  induction l1 as [|x l1 IH]; intros l2 Hs1 Hs2 Hf.
  - destruct l2 as [|y l2]; [reflexivity|].
    specialize (Hf (fst y)). simpl in Hf. rewrite Z.eqb_refl in Hf.
    discriminate.
  - destruct l2 as [|y l2].
    + specialize (Hf (fst x)). simpl in Hf. rewrite Z.eqb_refl in Hf.
      discriminate.
    + inversion Hs1 as [|? ? Hs1' Hx]; subst.
      inversion Hs2 as [|? ? Hs2' Hy]; subst.
      rewrite Forall_forall in Hx, Hy.
      assert (Hle1 : fst x <= fst y).
      { pose proof (Hf (fst y)) as H. cbn [filter] in H.
        rewrite Z.eqb_refl in H.
        destruct (fst x =? fst y) eqn:E; [apply Z.eqb_eq in E; lia|].
        assert (Hin : In y (filter (fun p => fst p =? fst y) l1))
          by (rewrite H; now left).
        apply filter_In in Hin. apply (Hx y), Hin. }
      assert (Hle2 : fst y <= fst x).
      { pose proof (Hf (fst x)) as H. cbn [filter] in H.
        rewrite Z.eqb_refl in H.
        destruct (fst y =? fst x) eqn:E; [apply Z.eqb_eq in E; lia|].
        assert (Hin : In x (filter (fun p => fst p =? fst x) l2))
          by (rewrite <- H; now left).
        apply filter_In in Hin. apply (Hy x), Hin. }
      assert (Hk : fst x = fst y) by lia.
      assert (Exy : x = y).
      { pose proof (Hf (fst x)) as H. cbn [filter] in H.
        rewrite <- Hk, Z.eqb_refl in H. congruence. }
      subst y. f_equal. apply IH; try assumption.
      intros k. specialize (Hf k). cbn [filter] in Hf.
      destruct (fst x =? k); congruence.
Qed.
End SortFacts.

(** ** The filter and the deduplication *)

Lemma accepted_true_iff x :
  accepted x = true <->
  verdict x = "OK" /\ exists r, rating (problem x) = Some r.
Proof.
  unfold accepted. rewrite andb_true_iff, String.eqb_eq.
  destruct (rating (problem x)) as [r|].
  - split; intros [H _]; split; eauto.
  - split; intros [_ H]; [discriminate | destruct H; discriminate].
Qed.

Lemma filter_accepted_Forall data :
  Forall (fun x => accepted x = true) (filter_accepted data).
Proof.
  apply Forall_forall. intros x Hx. now apply filter_In in Hx.
Qed.

Lemma filter_accepted_id data :
  Forall (fun x => accepted x = true) data -> filter_accepted data = data.
Proof.
  unfold filter_accepted. induction 1 as [|x l Hx _ IH]; simpl.
  - reflexivity.
  - now rewrite Hx, IH.
Qed.

Lemma filter_accepted_drop l1 x l2 :
  accepted x = false ->
  filter_accepted (l1 ++ x :: l2)%list = filter_accepted (l1 ++ l2)%list.
Proof.
  intros H. unfold filter_accepted. rewrite !filter_app. simpl. now rewrite H.
Qed.

Lemma existsb_eqb_In (n : string) (l : list string) :
  existsb (String.eqb n) l = true <-> In n l.
Proof.
  rewrite existsb_exists. split.
  - intros [y [Hy E]]. apply String.eqb_eq in E. now subst.
  - intros H. exists n. split; [assumption | apply String.eqb_refl].
Qed.

Lemma existsb_name_In (n : string) (l : list Submission) :
  existsb (fun y => String.eqb (name (problem y)) n) l = true <->
  In n (map problem_name l).
Proof.
  rewrite existsb_exists, in_map_iff. unfold problem_name. split.
  - intros [y [Hy E]]. apply String.eqb_eq in E. eauto.
  - intros [y [E Hy]]. exists y. split; [assumption | now apply String.eqb_eq].
Qed.

Lemma bool_eq_iff (a b : bool) : (a = true <-> b = true) -> a = b.
Proof. destruct a, b; intuition congruence. Qed.

Lemma filter_st_cons exist_name y l :
  fst (filter_st name_is_new exist_name (y :: l)) =
  if existsb (String.eqb (name (problem y))) exist_name
  then fst (filter_st name_is_new exist_name l)
  else y :: fst (filter_st name_is_new
                   (exist_name ++ [name (problem y)])%list l).
Proof.
  cbn [filter_st]. unfold name_is_new at 1.
  destruct (existsb _ exist_name); cbn [negb];
    destruct (filter_st name_is_new _ l); reflexivity.
Qed.

(** The store of names seen so far holds the names of the records
    passed so far. *)
Lemma filter_st_first_occurrences l : forall exist_name earlier,
  (forall n, In n exist_name <-> In n (map problem_name earlier)) ->
  fst (filter_st name_is_new exist_name l) = first_occurrences_after earlier l.
Proof.
  induction l as [|x l IH]; intros exist_name earlier Hinv; [reflexivity|].
  rewrite filter_st_cons. cbn [first_occurrences_after].
  assert (E : existsb (String.eqb (name (problem x))) exist_name =
              existsb (fun y => String.eqb (name (problem y)) (name (problem x)))
                      earlier).
  { apply bool_eq_iff. rewrite existsb_eqb_In, existsb_name_In. apply Hinv. }
  rewrite E.
  destruct (existsb _ earlier) eqn:Ex.
  - apply IH. intros n. rewrite map_app, in_app_iff, Hinv. cbn.
    apply existsb_name_In in Ex. unfold problem_name at 3.
    intuition (subst; auto).
  - f_equal. apply IH. intros n. rewrite map_app, !in_app_iff, Hinv. cbn.
    unfold problem_name at 2. tauto.
Qed.

Lemma dedup_by_name_first_occurrences l :
  dedup_by_name l = first_occurrences l.
Proof.
  unfold dedup_by_name, first_occurrences.
  apply filter_st_first_occurrences. intros n. simpl. tauto.
Qed.

Lemma filter_st_incl l : forall exist_name x,
  In x (fst (filter_st name_is_new exist_name l)) -> In x l.
Proof.
  induction l as [|y l IH]; intros exist_name x; [auto|].
  rewrite filter_st_cons. destruct (existsb _ exist_name).
  - intros H. right. eapply IH; eassumption.
  - intros [H|H]; [now left | right; eapply IH; eassumption].
Qed.

Lemma filter_st_fresh l : forall exist_name,
  NoDup (map problem_name (fst (filter_st name_is_new exist_name l)))
  /\ forall x, In x (fst (filter_st name_is_new exist_name l)) ->
               ~ In (problem_name x) exist_name.
Proof.
  induction l as [|y l IH]; intros exist_name.
  - simpl. split; [constructor | tauto].
  - rewrite filter_st_cons.
    destruct (existsb (String.eqb (name (problem y))) exist_name) eqn:Ex.
    + apply IH.
    + destruct (IH (exist_name ++ [name (problem y)])%list) as [Hnd Hfresh].
      assert (Hy : ~ In (name (problem y)) exist_name).
      { intros H. apply existsb_eqb_In in H. congruence. }
      split.
      * simpl. constructor; [|exact Hnd].
        intros Hin. apply in_map_iff in Hin. destruct Hin as [z [Ez Hz]].
        apply (Hfresh z Hz). apply in_or_app. right. left.
        symmetry. exact Ez.
      * intros x [->|Hx]; [exact Hy|].
        intros H. apply (Hfresh x Hx). apply in_or_app. now left.
Qed.

Lemma dedup_by_name_NoDup l : NoDup (map problem_name (dedup_by_name l)).
Proof. apply (filter_st_fresh l []). Qed.

Lemma dedup_by_name_incl l x : In x (dedup_by_name l) -> In x l.
Proof. apply filter_st_incl. Qed.

Lemma dedup_by_name_Forall (P : Submission -> Prop) l :
  Forall P l -> Forall P (dedup_by_name l).
Proof.
  rewrite !Forall_forall. intros H x Hx. apply H.
  now apply dedup_by_name_incl.
Qed.

Lemma filter_st_id l : forall exist_name,
  NoDup (map problem_name l) ->
  (forall x, In x l -> ~ In (problem_name x) exist_name) ->
  fst (filter_st name_is_new exist_name l) = l.
Proof.
  induction l as [|y l IH]; intros exist_name Hnd Hfresh; [reflexivity|].
  rewrite filter_st_cons.
  destruct (existsb (String.eqb (name (problem y))) exist_name) eqn:Ex.
  - apply existsb_eqb_In in Ex. exfalso. apply (Hfresh y); [now left | exact Ex].
  - f_equal. inversion Hnd as [|? ? Hnotin Hnd']; subst.
    apply IH; [exact Hnd'|].
    intros x Hx Hin. apply in_app_or in Hin. destruct Hin as [Hin|[Hin|[]]].
    + apply (Hfresh x); [now right | exact Hin].
    + apply Hnotin. apply in_map_iff. exists x. split; [|exact Hx].
      symmetry. exact Hin.
Qed.

Lemma dedup_by_name_id l :
  NoDup (map problem_name l) -> dedup_by_name l = l.
Proof.
  intros H. apply filter_st_id; [exact H | intros x _ []].
Qed.

(** ** Sorting the records *)

Lemma accepted_rated x : accepted x = true -> rated x.
Proof.
  intros H. apply accepted_true_iff in H. destruct H as [_ [r Hr]].
  unfold rated. congruence.
Qed.

Lemma rated_key_of x : rated x -> rating (problem x) = Some (key_of x).
Proof.
  unfold rated, key_of. destruct (rating (problem x)); congruence.
Qed.

Lemma keyed_snd data : map snd (keyed data) = data.
Proof.
  unfold keyed. rewrite map_map. simpl. apply map_id.
Qed.

Lemma keyed_well_keyed data :
  Forall rated data -> Forall well_keyed (keyed data).
Proof.
  unfold keyed. induction 1 as [|x l Hx _ IH]; simpl; constructor.
  - unfold well_keyed. simpl. now apply rated_key_of.
  - exact IH.
Qed.

Lemma omap_rating_keys data :
  Forall rated data ->
  omap (fun x => obind (rating_key x) (fun k => Ret (k, x))) data
  = Ret (keyed data).
Proof.
  induction 1 as [|x l Hx _ IH]; simpl.
  - reflexivity.
  - rewrite IH. unfold rating_key. rewrite (rated_key_of x Hx). reflexivity.
Qed.

Lemma sorted_by_rating_runs data :
  Forall rated data -> sorted_by_rating data = Ret (sort_submissions data).
Proof.
  intros H. unfold sorted_by_rating. now rewrite omap_rating_keys.
Qed.

Lemma sort_submissions_perm data : Permutation data (sort_submissions data).
Proof.
  unfold sort_submissions. rewrite <- (keyed_snd data) at 1.
  apply Permutation_map, sort_by_key_perm.
Qed.

Lemma sort_submissions_Forall (P : Submission -> Prop) data :
  Forall P data -> Forall P (sort_submissions data).
Proof.
  intros H. eapply Permutation_Forall; [apply sort_submissions_perm | exact H].
Qed.

Lemma well_keyed_sorted (l : list (Z * Submission)) :
  Forall well_keyed l -> StronglySorted key_le l ->
  StronglySorted rating_le (map snd l).
Proof.
  intros Hwk Hs. induction Hs as [|p l Hs IH Hall]; simpl.
  - constructor.
  - inversion Hwk as [|? ? Hp Hl]; subst. constructor; [now apply IH|].
    apply Forall_forall. intros y Hy. apply in_map_iff in Hy.
    destruct Hy as [q [<- Hq]].
    rewrite Forall_forall in Hall, Hl.
    exists (fst p), (fst q). repeat split.
    + exact Hp.
    + now apply Hl.
    + now apply Hall.
Qed.

Lemma sort_submissions_sorted data :
  Forall rated data -> StronglySorted rating_le (sort_submissions data).
Proof.
  intros H. unfold sort_submissions. apply well_keyed_sorted.
  - eapply Permutation_Forall; [apply sort_by_key_perm|].
    now apply keyed_well_keyed.
  - apply sort_by_key_sorted.
Qed.

Lemma well_keyed_filter (l : list (Z * Submission)) r :
  Forall well_keyed l ->
  filter (has_rating r) (map snd l) = map snd (filter (fun p => fst p =? r) l).
Proof.
  induction 1 as [|p l Hp _ IH]; simpl; [reflexivity|].
  unfold has_rating at 1. rewrite Hp.
  destruct (fst p =? r); simpl; now rewrite IH.
Qed.

Lemma sort_submissions_stable data r :
  Forall rated data ->
  filter (has_rating r) (sort_submissions data) = filter (has_rating r) data.
Proof.
  intros H. unfold sort_submissions.
  rewrite well_keyed_filter.
  - rewrite sort_by_key_stable, <- well_keyed_filter, keyed_snd;
      [reflexivity | now apply keyed_well_keyed].
  - eapply Permutation_Forall; [apply sort_by_key_perm|].
    now apply keyed_well_keyed.
Qed.

Lemma keyed_sorted data :
  StronglySorted rating_le data -> StronglySorted key_le (keyed data).
Proof.
  unfold keyed. induction 1 as [|x l Hs IH Hall]; simpl; constructor.
  - exact IH.
  - apply Forall_forall. intros q Hq. apply in_map_iff in Hq.
    destruct Hq as [y [<- Hy]]. rewrite Forall_forall in Hall.
    destruct (Hall y Hy) as [rx [ry [Hx [Hy' Hle]]]].
    unfold key_le, key_of. simpl. now rewrite Hx, Hy'.
Qed.

Lemma sort_submissions_id data :
  StronglySorted rating_le data -> sort_submissions data = data.
Proof.
  intros H. unfold sort_submissions.
  rewrite sort_by_key_sorted_id by now apply keyed_sorted.
  apply keyed_snd.
Qed.

(** ** The counting loops *)

Lemma count_ratings_runs data : forall d,
  Forall rated data ->
  ofold (fun d x => obind (rating_key x) (fun r => Ret (count_one Z.eqb d r)))
        data d
  = Ret (tally Z.eqb (map key_of data) d).
Proof.
  induction data as [|x l IH]; intros d H; simpl.
  - reflexivity.
  - inversion H as [|? ? Hx Hl]; subst.
    unfold rating_key at 1. rewrite (rated_key_of x Hx). simpl.
    now rewrite IH.
Qed.

Lemma count_tags_tally data : forall d,
  fold_left (fun d x => fold_left (count_one String.eqb) (tags (problem x)) d)
            data d
  = tally String.eqb (flat_map (fun x => tags (problem x)) data) d.
Proof.
  unfold tally. induction data as [|x l IH]; intros d; simpl.
  - reflexivity.
  - now rewrite IH, fold_left_app.
Qed.

Lemma occurrences_key_of data r :
  Forall rated data ->
  occurrences Z.eqb r (map key_of data)
  = List.length (filter (has_rating r) data).
Proof.
  unfold occurrences. induction 1 as [|x l Hx _ IH]; simpl; [reflexivity|].
  unfold has_rating at 1. rewrite (rated_key_of x Hx).
  rewrite (Z.eqb_sym r). destruct (key_of x =? r); simpl; now rewrite IH.
Qed.

Lemma occurrences_app {K : Type} (eqb : K -> K -> bool) k (l1 l2 : list K) :
  occurrences eqb k (l1 ++ l2) = (occurrences eqb k l1 + occurrences eqb k l2)%nat.
Proof. unfold occurrences. now rewrite filter_app, length_app. Qed.

Lemma occurrences_tags data t :
  Forall (fun x => NoDup (tags (problem x))) data ->
  occurrences String.eqb t (flat_map (fun x => tags (problem x)) data)
  = List.length (filter (has_tag t) data).
Proof.
  induction 1 as [|x l Hx _ IH]; [reflexivity|].
  cbn [flat_map filter]. rewrite occurrences_app, IH.
  rewrite (occurrences_NoDup String.eqb String.eqb_eq) by exact Hx.
  unfold has_tag at 2. destruct (existsb _ (tags (problem x))); reflexivity.
Qed.

(** ** A run of [parse_data] *)

Lemma output_list_accepted data :
  Forall (fun x => accepted x = true) (output_list data).
Proof.
  unfold output_list. apply sort_submissions_Forall, dedup_by_name_Forall,
    filter_accepted_Forall.
Qed.

Lemma output_list_rated data : Forall rated (output_list data).
Proof.
  eapply Forall_impl; [|apply output_list_accepted].
  intros x. apply accepted_rated.
Qed.

Lemma dedup_filter_rated data :
  Forall rated (dedup_by_name (filter_accepted data)).
Proof.
  apply dedup_by_name_Forall.
  eapply Forall_impl; [|apply filter_accepted_Forall].
  intros x. apply accepted_rated.
Qed.

(** [parse_data] never raises on a list: it writes the three files, in this
    order, and prints nothing. *)
Lemma parse_data_runs data p :
  parse_data (Some data) p =
  (mkProcess (stdout p)
     (dict_set String.eqb
        (dict_set String.eqb
           (dict_set String.eqb (files p) "data.json"
              (DataDoc (output_list data)))
           "rating.json" (RatingDoc (ratings_of (output_list data))))
        "tags.json" (TagsDoc (tags_of (output_list data)))),
   Ret tt).
Proof.
  unfold parse_data, mbind, lift, write_file.
  rewrite (sorted_by_rating_runs _ (dedup_filter_rated data)).
  fold (output_list data).
  unfold count_ratings. rewrite (count_ratings_runs _ _ (output_list_rated data)).
  unfold count_tags. rewrite count_tags_tally.
  reflexivity.
Qed.

Lemma aggregate_eq data :
  aggregate data =
  Some (output_list data, ratings_of (output_list data),
        tags_of (output_list data)).
Proof.
  unfold aggregate. rewrite parse_data_runs. reflexivity.
Qed.

Lemma output_list_NoDup data : NoDup (map problem_name (output_list data)).
Proof.
  unfold output_list.
  eapply Permutation_NoDup.
  - apply Permutation_map, sort_submissions_perm.
  - apply dedup_by_name_NoDup.
Qed.

Lemma output_list_sorted data : StronglySorted rating_le (output_list data).
Proof. apply sort_submissions_sorted, dedup_filter_rated. Qed.

Lemma output_list_fixpoint data :
  output_list (output_list data) = output_list data.
Proof.
  unfold output_list at 1.
  rewrite filter_accepted_id by apply output_list_accepted.
  rewrite dedup_by_name_id by apply output_list_NoDup.
  apply sort_submissions_id, output_list_sorted.
Qed.

(** ** The aggregator: filter, deduplication, order, counts *)

Lemma Permutation_filter_length {A : Type} (f : A -> bool) (l l' : list A) :
  Permutation l l' -> List.length (filter f l) = List.length (filter f l').
Proof.
  induction 1 as [|x l l' _ IH|x y l|l l' l'' _ IH1 _ IH2]; simpl.
  - reflexivity.
  - destruct (f x); simpl; now rewrite IH.
  - destruct (f x), (f y); reflexivity.
  - now rewrite IH1.
Qed.

(** C3: a record reaches the three outputs only if its verdict is "OK" and
    its problem has a rating.  Every record of the written list has both
    properties, and a record that lacks either one (an accepted submission
    to an unrated problem included) can be removed from the input without
    changing any of the three outputs. *)
Theorem parse_data_keeps_only_accepted : forall data : list Submission,
  (exists out rc tc,
      aggregate data = Some (out, rc, tc)
      /\ Forall (fun x => verdict x = "OK"
                          /\ exists r, rating (problem x) = Some r) out)
  /\ (forall l1 x l2,
        data = (l1 ++ x :: l2)%list ->
        verdict x <> "OK" \/ rating (problem x) = None ->
        aggregate (l1 ++ l2)%list = aggregate data).
Proof.
  intros data. split.
  - exists (output_list data), (ratings_of (output_list data)),
      (tags_of (output_list data)).
    split; [apply aggregate_eq|].
    eapply Forall_impl; [|apply output_list_accepted].
    intros x. apply accepted_true_iff.
  - intros l1 x l2 -> Hx.
    assert (Hacc : accepted x = false).
    { destruct (accepted x) eqn:E; [|reflexivity].
      apply accepted_true_iff in E. destruct E as [Hv [r Hr]].
      destruct Hx; congruence. }
    rewrite !aggregate_eq. unfold output_list.
    now rewrite (filter_accepted_drop l1 x l2 Hacc).
Qed.

Lemma parse_data_keeps_only_accepted_witness :
  (verdict sample_unrated <> "OK" \/ rating (problem sample_unrated) = None)
  /\ aggregate ([sample_P1] ++ [sample_P2])%list
     = aggregate ([sample_P1] ++ sample_unrated :: [sample_P2])%list.
Proof.
  split.
  - right. reflexivity.
  - apply (proj2 (parse_data_keeps_only_accepted
                    ([sample_P1] ++ sample_unrated :: [sample_P2])%list)
                 [sample_P1] sample_unrated [sample_P2]).
    + reflexivity.
    + right. reflexivity.
Defined.

(** C4: after the verdict and rating filter, the deduplication keeps exactly
    the first occurrence of every problem name, in input order: a filtered
    record is kept when no earlier filtered record bears its problem name.
    The written list holds these records and no others. *)
Theorem dedup_keeps_first_occurrences : forall data : list Submission,
  dedup_by_name (filter_accepted data) = first_occurrences (filter_accepted data)
  /\ exists out rc tc,
       aggregate data = Some (out, rc, tc)
       /\ Permutation (first_occurrences (filter_accepted data)) out.
Proof.
  intros data. split; [apply dedup_by_name_first_occurrences|].
  exists (output_list data), (ratings_of (output_list data)),
    (tags_of (output_list data)).
  split; [apply aggregate_eq|].
  rewrite <- dedup_by_name_first_occurrences. apply sort_submissions_perm.
Qed.

(** C5: the written list is the filtered, deduplicated sequence in ascending
    order of rating, and the sort is stable: the records of any one rating
    appear in the order the deduplication left them.  Two accepted records
    of rating 1500 named "P1" then "P2" come out with P1 before P2, also
    when an easier problem follows them in the input. *)
Theorem output_sorted_by_rating_stably :
  (forall data : list Submission,
     exists out rc tc,
       aggregate data = Some (out, rc, tc)
       /\ Permutation (dedup_by_name (filter_accepted data)) out
       /\ StronglySorted rating_le out
       /\ forall r, filter (has_rating r) out
                    = filter (has_rating r) (dedup_by_name (filter_accepted data)))
  /\ option_map (fun o => fst (fst o)) (aggregate [sample_P1; sample_P2])
     = Some [sample_P1; sample_P2]
  /\ option_map (fun o => fst (fst o))
                (aggregate [sample_P1; sample_P2; sample_P0])
     = Some [sample_P0; sample_P1; sample_P2].
Proof.
  split; [|split; reflexivity].
  intros data.
  exists (output_list data), (ratings_of (output_list data)),
    (tags_of (output_list data)).
  split; [apply aggregate_eq|]. split; [apply sort_submissions_perm|].
  split; [apply output_list_sorted|].
  intros r. apply sort_submissions_stable, dedup_filter_rated.
Qed.

(** C6, as amended: [rating.json] maps each rating to the number of
    deduplicated, filtered records of that rating, and [tags.json] maps each
    tag to the number of entries equal to it in the tag lists of these
    records, a record giving one increment for each entry of its tag list; a
    rating or tag that received none has no entry.  A tag repeated within
    one list is counted each time; when no record repeats a tag in its
    list, the count of a tag is the number of deduplicated, filtered records
    whose tag list contains it.  On the three-record example the outputs are
    the single record for "A", {1200: 1} and {"dp": 1}. *)
Theorem counts_per_rating_and_tag :
  (forall data : list Submission,
     exists out rc tc,
       aggregate data = Some (out, rc, tc)
       /\ (forall r,
             dict_get Z.eqb rc r =
             let n := List.length (filter (has_rating r)
                                     (dedup_by_name (filter_accepted data))) in
             if (n =? 0)%nat then None else Some n)
       /\ (forall t,
             dict_get String.eqb tc t =
             let n := occurrences String.eqb t
                        (flat_map (fun x => tags (problem x))
                                  (dedup_by_name (filter_accepted data))) in
             if (n =? 0)%nat then None else Some n)
       /\ (Forall (fun x => NoDup (tags (problem x))) data ->
           forall t,
             dict_get String.eqb tc t =
             let n := List.length (filter (has_tag t)
                                     (dedup_by_name (filter_accepted data))) in
             if (n =? 0)%nat then None else Some n))
  /\ aggregate [sample_A1; sample_B; sample_A2]
     = Some ([sample_A1], [(1200, 1%nat)], [("dp", 1%nat)]).
Proof.
  split; [|reflexivity].
  intros data.
  exists (output_list data), (ratings_of (output_list data)),
    (tags_of (output_list data)).
  split; [apply aggregate_eq|].
  assert (Hperm : Permutation (dedup_by_name (filter_accepted data))
                              (output_list data))
    by apply sort_submissions_perm.
  split; [|split].
  - intros r. unfold ratings_of.
    rewrite (tally_get Z.eqb Z.eqb_eq). cbn [dict_get].
    rewrite occurrences_key_of by apply output_list_rated.
    now rewrite (Permutation_filter_length _ _ _ Hperm).
  - intros t. unfold tags_of.
    rewrite (tally_get String.eqb String.eqb_eq). cbn [dict_get].
    unfold occurrences.
    now rewrite (Permutation_filter_length (String.eqb t) _ _
                   (Permutation_flat_map (fun x => tags (problem x)) Hperm)).
  - intros Htags t. unfold tags_of.
    rewrite (tally_get String.eqb String.eqb_eq). cbn [dict_get].
    rewrite occurrences_tags.
    + now rewrite (Permutation_filter_length _ _ _ Hperm).
    + apply sort_submissions_Forall, dedup_by_name_Forall.
      rewrite Forall_forall in *. intros x Hx. apply Htags.
      now apply filter_In in Hx.
Qed.

Lemma counts_per_rating_and_tag_witness :
  Forall (fun x => NoDup (tags (problem x))) [sample_P1; sample_P2; sample_P0]
  /\ exists out rc tc,
       aggregate [sample_P1; sample_P2; sample_P0] = Some (out, rc, tc)
       /\ dict_get Z.eqb rc 1500 = Some 2%nat
       /\ dict_get String.eqb tc "dp" = Some 2%nat
       /\ dict_get String.eqb tc "greedy" = None.
Proof.
  assert (H : Forall (fun x => NoDup (tags (problem x)))
                     [sample_P1; sample_P2; sample_P0]).
  { repeat constructor; simpl; intuition discriminate. }
  split; [exact H|].
  destruct (proj1 counts_per_rating_and_tag [sample_P1; sample_P2; sample_P0])
    as [out [rc [tc [Hagg [Hr [_ Ht]]]]]].
  exists out, rc, tc. split; [exact Hagg|].
  split; [apply (Hr 1500) | split; [apply (Ht H "dp") | apply (Ht H "greedy")]].
Defined.

(** C6 as stated fails: the tag count is not the number of records whose
    tag list contains the tag.  One accepted record whose tag list is
    ["dp", "dp"] gives {"dp": 2}, while a single record contains "dp". *)
Lemma repeated_tag_counted_per_entry :
  aggregate [sample_repeated_tag]
  = Some ([sample_repeated_tag], [(1000, 1%nat)], [("dp", 2%nat)])
  /\ List.length (filter (has_tag "dp")
                    (dedup_by_name (filter_accepted [sample_repeated_tag])))
     = 1%nat
  /\ ~ (forall data : list Submission,
         exists out rc tc,
           aggregate data = Some (out, rc, tc)
           /\ forall t,
                dict_get String.eqb tc t =
                let n := List.length
                           (filter (has_tag t)
                                   (dedup_by_name (filter_accepted data))) in
                if (n =? 0)%nat then None else Some n).
Proof.
  split; [reflexivity|]. split; [reflexivity|].
  intros H. destruct (H [sample_repeated_tag]) as [out [rc [tc [Hagg Ht]]]].
  assert (Htc : tc = [("dp", 2%nat)]).
  { assert (E : aggregate [sample_repeated_tag]
                = Some ([sample_repeated_tag], [(1000, 1%nat)],
                        [("dp", 2%nat)])) by reflexivity.
    rewrite E in Hagg. now injection Hagg as _ _ <-. }
  specialize (Ht "dp"). rewrite Htc in Ht. cbv in Ht. discriminate.
Qed.

(** C7: the aggregation is idempotent on its own output: run again on the
    list it wrote, it writes the same list, the same rating counts and the
    same tag counts. *)
Theorem aggregate_idempotent : forall data : list Submission,
  exists out rc tc,
    aggregate data = Some (out, rc, tc)
    /\ aggregate out = Some (out, rc, tc).
Proof.
  intros data.
  exists (output_list data), (ratings_of (output_list data)),
    (tags_of (output_list data)).
  split; [apply aggregate_eq|].
  rewrite aggregate_eq. now rewrite output_list_fixpoint.
Qed.

(** C10: the outputs are consistent with each other: every record of the
    written list has verdict "OK" and a rating, no two records of the list
    share a problem name, and the values of the rating counts add up to the
    length of the list. *)
Theorem outputs_consistent : forall data : list Submission,
  exists out rc tc,
    aggregate data = Some (out, rc, tc)
    /\ Forall (fun x => verdict x = "OK"
                        /\ exists r, rating (problem x) = Some r) out
    /\ NoDup (map problem_name out)
    /\ dict_total rc = List.length out.
Proof.
  intros data.
  exists (output_list data), (ratings_of (output_list data)),
    (tags_of (output_list data)).
  split; [apply aggregate_eq|]. split.
  - eapply Forall_impl; [|apply output_list_accepted].
    intros x. apply accepted_true_iff.
  - split; [apply output_list_NoDup|].
    unfold ratings_of. rewrite tally_total, length_map. simpl. lia.
Qed.

(** ** Strings *)

Lemma str_app_assoc (a b c : string) : (a ++ b) ++ c = a ++ (b ++ c).
Proof. induction a as [|x a IH]; simpl; [reflexivity | now rewrite IH]. Qed.

Lemma str_app_nil_r (a : string) : a ++ EmptyString = a.
Proof. induction a as [|x a IH]; simpl; [reflexivity | now rewrite IH]. Qed.

Lemma str_length_app (a b : string) :
  String.length (a ++ b) = (String.length a + String.length b)%nat.
Proof. induction a as [|x a IH]; simpl; [reflexivity | now rewrite IH]. Qed.

Lemma str_drop_last_snoc (s : string) (c : ascii) :
  str_drop_last (s ++ String c EmptyString) = s.
Proof.
  induction s as [|x s IH]; [reflexivity|].
  simpl. rewrite IH. destruct s; reflexivity.
Qed.

Lemma list_ascii_of_string_app (a b : string) :
  list_ascii_of_string (a ++ b)
  = (list_ascii_of_string a ++ list_ascii_of_string b)%list.
Proof. induction a as [|x a IH]; simpl; [reflexivity | now rewrite IH]. Qed.

Lemma amp_terminated_join (l : list string) :
  l <> [] -> amp_terminated l = join_amp l ++ "&".
Proof.
  induction l as [|s l IH]; [congruence|]. intros _.
  destruct l as [|s' l].
  - reflexivity.
  - change (amp_terminated (s :: s' :: l))
      with (s ++ "&" ++ amp_terminated (s' :: l)).
    change (join_amp (s :: s' :: l)) with (s ++ "&" ++ join_amp (s' :: l)).
    rewrite IH by discriminate. now rewrite !str_app_assoc.
Qed.

(** ** The order on keys *)

Lemma ascii_compare_refl (a : ascii) : Ascii.compare a a = Eq.
Proof. unfold Ascii.compare. apply N.compare_refl. Qed.

Lemma ascii_compare_lt_trans (a b c : ascii) :
  Ascii.compare a b = Lt -> Ascii.compare b c = Lt -> Ascii.compare a c = Lt.
Proof.
  unfold Ascii.compare. rewrite !N.compare_lt_iff. apply N.lt_trans.
Qed.

Lemma str_compare_lt_trans (a : string) : forall b c,
  String.compare a b = Lt -> String.compare b c = Lt -> String.compare a c = Lt.
Proof.
  induction a as [|x a IH]; intros [|y b] [|z c]; simpl;
    try discriminate; try reflexivity.
  destruct (Ascii.compare x y) eqn:Exy; try discriminate;
    destruct (Ascii.compare y z) eqn:Eyz; try discriminate; intros H1 H2.
  - apply Ascii.compare_eq_iff in Exy, Eyz. subst.
    rewrite ascii_compare_refl. eapply IH; eassumption.
  - apply Ascii.compare_eq_iff in Exy. subst. now rewrite Eyz.
  - apply Ascii.compare_eq_iff in Eyz. subst. now rewrite Exy.
  - now rewrite (ascii_compare_lt_trans x y z).
Qed.

Lemma str_compare_refl (a : string) : String.compare a a = Eq.
Proof.
  induction a as [|x a IH]; simpl; [reflexivity|].
  now rewrite ascii_compare_refl.
Qed.

Lemma str_le_cases (a b : string) : str_le a b <-> str_lt a b \/ a = b.
Proof.
  unfold str_le, str_lt, String.leb, String.ltb.
  destruct (String.compare a b) eqn:E.
  - apply String.compare_eq_iff in E. intuition.
  - intuition.
  - split; [discriminate|]. intros [H|H]; [discriminate|].
    subst. rewrite str_compare_refl in E. discriminate.
Qed.

Lemma str_lt_irrefl (a : string) : ~ str_lt a a.
Proof.
  unfold str_lt, String.ltb. now rewrite str_compare_refl.
Qed.

Lemma str_lt_trans (a b c : string) : str_lt a b -> str_lt b c -> str_lt a c.
Proof.
  unfold str_lt, String.ltb. intros H1 H2.
  destruct (String.compare a b) eqn:E1; try discriminate.
  destruct (String.compare b c) eqn:E2; try discriminate.
  now rewrite (str_compare_lt_trans a b c E1 E2).
Qed.

Lemma str_le_trans (a b c : string) : str_le a b -> str_le b c -> str_le a c.
Proof.
  rewrite !str_le_cases. intros [H1 | ->] [H2 | ->]; auto.
  left. eapply str_lt_trans; eassumption.
Qed.

Lemma str_le_lt (a b : string) : str_le a b -> a <> b -> str_lt a b.
Proof. rewrite str_le_cases. intros [H|H] Hne; [exact H | contradiction]. Qed.

(** ** [SortedDict] *)

Lemma key_insert_perm k ks : Permutation (k :: ks) (key_insert k ks).
Proof.
  induction ks as [|k' ks IH]; simpl.
  - apply Permutation_refl.
  - destruct (String.leb k k').
    + apply Permutation_refl.
    + eapply perm_trans; [apply perm_swap | now apply perm_skip].
Qed.

Lemma sorted_keys_perm ks : Permutation ks (sorted_keys ks).
Proof.
  induction ks as [|k ks IH]; simpl.
  - constructor.
  - eapply perm_trans; [apply perm_skip, IH | apply key_insert_perm].
Qed.

Lemma key_insert_sorted k ks :
  StronglySorted str_le ks -> StronglySorted str_le (key_insert k ks).
Proof.
  induction 1 as [|k' ks Hs IH Hall]; simpl.
  - repeat constructor.
  - destruct (String.leb k k') eqn:E.
    + constructor; [now constructor|].
      constructor; [exact E|].
      eapply Forall_impl; [|exact Hall].
      intros q Hq. eapply str_le_trans; eassumption.
    + constructor; [exact IH|].
      eapply Permutation_Forall; [apply key_insert_perm|].
      constructor; [|exact Hall].
      destruct (String.leb_total k k') as [H|H]; [congruence | exact H].
Qed.

Lemma sorted_keys_sorted ks : StronglySorted str_le (sorted_keys ks).
Proof.
  induction ks as [|k ks IH]; simpl.
  - constructor.
  - now apply key_insert_sorted.
Qed.

(** Two ascending lists with the same elements are the same list. *)
Lemma sorted_perm_unique (l : list string) : forall l',
  Permutation l l' ->
  StronglySorted str_le l -> StronglySorted str_le l' -> l = l'.
Proof.
  induction l as [|x l IH]; intros l' Hp Hs Hs'.
  - apply Permutation_nil in Hp. now subst.
  - destruct l' as [|y l'].
    + apply Permutation_sym, Permutation_nil in Hp. discriminate.
    + inversion Hs as [|? ? Hsl Hx]; subst.
      inversion Hs' as [|? ? Hsl' Hy]; subst.
      assert (Exy : x = y).
      { assert (Hin1 : In x (y :: l'))
          by (eapply Permutation_in; [exact Hp | now left]).
        assert (Hin2 : In y (x :: l))
          by (eapply Permutation_in;
              [apply Permutation_sym; exact Hp | now left]).
        rewrite Forall_forall in Hx, Hy.
        destruct Hin1 as [->|Hin1]; [reflexivity|].
        destruct Hin2 as [->|Hin2]; [reflexivity|].
        apply String.leb_antisym; [now apply Hx | now apply Hy]. }
      subst y. f_equal. apply IH; try assumption.
      eapply Permutation_cons_inv; exact Hp.
Qed.

Lemma sorted_keys_perm_eq ks ks' :
  Permutation ks ks' -> sorted_keys ks = sorted_keys ks'.
Proof.
  intros Hp. apply sorted_perm_unique; try apply sorted_keys_sorted.
  eapply perm_trans; [apply Permutation_sym, sorted_keys_perm|].
  eapply perm_trans; [exact Hp | apply sorted_keys_perm].
Qed.

Lemma sorted_NoDup_strict (l : list string) :
  StronglySorted str_le l -> NoDup l -> StronglySorted str_lt l.
Proof.
  induction 1 as [|x l Hs IH Hall]; intros Hnd; constructor.
  - apply IH. now inversion Hnd.
  - inversion Hnd as [|? ? Hnotin _]; subst.
    rewrite Forall_forall in *. intros y Hy.
    apply str_le_lt; [now apply Hall | intros ->; contradiction].
Qed.

Lemma dict_get_In (params : dict string pyval) k v :
  NoDup (map fst params) -> In (k, v) params ->
  dict_get String.eqb params k = Some v.
Proof.
  induction params as [|[k' v'] d IH]; simpl; intros Hnd Hin; [contradiction|].
  inversion Hnd as [|? ? Hnotin Hnd']; subst.
  destruct (String.eqb k k') eqn:E.
  - apply String.eqb_eq in E. subst k'.
    destruct Hin as [Heq|Hin]; [congruence|].
    exfalso. apply Hnotin. apply in_map_iff. now exists (k, v).
  - destruct Hin as [Heq|Hin].
    + injection Heq as -> ->. now rewrite String.eqb_refl in E.
    + now apply IH.
Qed.

Lemma item_of_keys params ks :
  (forall k, In k ks -> In k (map fst params)) ->
  map fst (flat_map (item_of params) ks) = ks.
Proof.
  induction ks as [|k ks IH]; intros H; [reflexivity|].
  cbn [flat_map]. rewrite map_app, IH by (intros; apply H; now right).
  unfold item_of.
  destruct (dict_get String.eqb params k) eqn:E; [reflexivity|].
  apply (dict_get_none_notin String.eqb String.eqb_eq) in E.
  exfalso. apply E, H. now left.
Qed.

Lemma item_of_own params l :
  NoDup (map fst params) -> incl l params ->
  flat_map (item_of params) (map fst l) = l.
Proof.
  intros Hnd. induction l as [|[k v] l IH]; intros Hincl; [reflexivity|].
  cbn [map flat_map fst]. unfold item_of at 1.
  rewrite (dict_get_In params k v Hnd) by (apply Hincl; now left).
  simpl. f_equal. apply IH. intros x Hx. apply Hincl. now right.
Qed.

Lemma SortedDict_items_keys params :
  map fst (SortedDict_items params) = sorted_keys (map fst params).
Proof.
  apply (item_of_keys params). intros k Hk.
  eapply Permutation_in; [apply Permutation_sym, sorted_keys_perm | exact Hk].
Qed.

Lemma SortedDict_items_perm params :
  NoDup (map fst params) -> Permutation params (SortedDict_items params).
Proof.
  intros Hnd. unfold SortedDict_items.
  rewrite <- (item_of_own params params Hnd (incl_refl _)) at 1.
  apply Permutation_flat_map, sorted_keys_perm.
Qed.

Lemma StronglySorted_map_inv {A B : Type} (R : B -> B -> Prop) (f : A -> B)
      (l : list A) :
  StronglySorted R (map f l) -> StronglySorted (fun a b => R (f a) (f b)) l.
Proof.
  induction l as [|x l IH]; simpl; intros H; constructor;
    inversion H as [|? ? Hs Hall]; subst.
  - now apply IH.
  - rewrite Forall_forall in *. intros y Hy. apply Hall. now apply in_map.
Qed.

Lemma SortedDict_items_sorted params :
  NoDup (map fst params) -> StronglySorted key_lt (SortedDict_items params).
Proof.
  intros Hnd. apply (StronglySorted_map_inv str_lt fst).
  rewrite SortedDict_items_keys. apply sorted_NoDup_strict.
  - apply sorted_keys_sorted.
  - eapply Permutation_NoDup; [apply sorted_keys_perm | exact Hnd].
Qed.

Lemma SortedDict_items_nonempty params :
  params <> [] -> SortedDict_items params <> [].
Proof.
  intros Hne Hnil.
  pose proof (SortedDict_items_keys params) as Hk. rewrite Hnil in Hk.
  simpl in Hk. destruct params as [|p params]; [congruence|].
  pose proof (sorted_keys_perm (map fst (p :: params))) as Hp.
  rewrite <- Hk in Hp. simpl in Hp.
  apply Permutation_sym, Permutation_nil in Hp. discriminate.
Qed.

(** The mapping alone decides the items: the order in which the keys were
    put into [params] is forgotten. *)
Lemma SortedDict_items_ext params1 params2 :
  NoDup (map fst params1) -> NoDup (map fst params2) ->
  (forall k, dict_get String.eqb params1 k = dict_get String.eqb params2 k) ->
  SortedDict_items params1 = SortedDict_items params2.
Proof.
  intros Hnd1 Hnd2 Hget. unfold SortedDict_items.
  assert (Hk : sorted_keys (map fst params1) = sorted_keys (map fst params2)).
  { apply sorted_keys_perm_eq, NoDup_Permutation; try assumption.
    intros k.
    pose proof (dict_get_none_notin String.eqb String.eqb_eq params1 k) as H1.
    pose proof (dict_get_none_notin String.eqb String.eqb_eq params2 k) as H2.
    rewrite Hget in H1.
    destruct (in_dec string_dec k (map fst params1)) as [Hin1|Hn1];
      destruct (in_dec string_dec k (map fst params2)) as [Hin2|Hn2];
      tauto. }
  rewrite Hk. apply flat_map_ext. intros k. unfold item_of. now rewrite Hget.
Qed.

(** ** The hashed string *)

Lemma fold_params_text (items : list (string * pyval)) : forall hs,
  fold_left (fun acc kv => acc ++ fst kv ++ "=" ++ format_value (snd kv) ++ "&")
            items hs
  = hs ++ amp_terminated (map render_param items).
Proof.
  induction items as [|kv items IH]; intros hs.
  - simpl. now rewrite str_app_nil_r.
  - cbn [fold_left map amp_terminated]. rewrite IH.
    unfold render_param. now rewrite !str_app_assoc.
Qed.

Lemma hash_string_empty SECRET rand method :
  hash_string SECRET rand method [] = rand ++ "/" ++ method ++ "#" ++ SECRET.
Proof.
  unfold hash_string. cbn [SortedDict_items map sorted_keys fold_right
                           flat_map fold_left].
  replace (rand ++ "/" ++ method ++ "?") with ((rand ++ "/" ++ method) ++ "?")
    by now rewrite !str_app_assoc.
  rewrite str_drop_last_snoc. now rewrite !str_app_assoc.
Qed.

(** For a mapping with at least one parameter, the hashed string is the
    canonical string of the specification. *)
Lemma hash_string_canonical SECRET rand method params :
  params <> [] ->
  hash_string SECRET rand method params
  = canonical_string SECRET rand method (SortedDict_items params).
Proof.
  intros Hne. unfold hash_string, canonical_string.
  rewrite fold_params_text.
  assert (Hitems : map render_param (SortedDict_items params) <> []).
  { intros H. apply map_eq_nil in H.
    now apply (SortedDict_items_nonempty params Hne). }
  rewrite (amp_terminated_join _ Hitems).
  replace ((rand ++ "/" ++ method ++ "?")
             ++ join_amp (map render_param (SortedDict_items params)) ++ "&")
    with (((rand ++ "/" ++ method ++ "?")
             ++ join_amp (map render_param (SortedDict_items params))) ++ "&")
    by now rewrite !str_app_assoc.
  rewrite str_drop_last_snoc. now rewrite !str_app_assoc.
Qed.

(** ** The shape of a signature *)

Lemma rand_prefix_length draws : String.length (rand_prefix draws) = 6%nat.
Proof. reflexivity. Qed.

Lemma get_In (s : string) : forall n,
  (n < String.length s)%nat ->
  exists c, String.get n s = Some c /\ In c (list_ascii_of_string s).
Proof.
  induction s as [|x s IH]; simpl; intros n Hn; [lia|].
  destruct n as [|n].
  - exists x. auto.
  - destruct (IH n) as [c [Hc Hin]]; [lia|]. exists c. auto.
Qed.

Lemma random_choice_In (s : string) (r : nat) :
  s <> EmptyString -> In (random_choice s r) (list_ascii_of_string s).
Proof.
  intros Hne. unfold random_choice.
  assert (Hlen : String.length s <> 0%nat) by (destruct s; simpl; congruence).
  destruct (get_In s (r mod String.length s)) as [c [Hc Hin]].
  - now apply Nat.mod_upper_bound.
  - now rewrite Hc.
Qed.

Lemma rand_prefix_alphabet draws :
  Forall (fun c => In c (list_ascii_of_string (ascii_letters ++ digits)))
         (list_ascii_of_string (rand_prefix draws)).
Proof.
  unfold rand_prefix. rewrite list_ascii_of_string_of_list_ascii.
  apply Forall_forall. intros c Hc. apply in_map_iff in Hc.
  destruct Hc as [i [<- _]]. apply random_choice_In. discriminate.
Qed.

Lemma be_bytes_length n x : List.length (SHA512.be_bytes n x) = n.
Proof. induction n as [|n IH]; simpl; [reflexivity | now rewrite IH]. Qed.

Lemma digest_length msg : List.length (SHA512.digest msg) = 64%nat.
Proof.
  unfold SHA512.digest. cbv zeta. now rewrite !length_app, !be_bytes_length.
Qed.

Lemma hex_digit_lowercase d :
  In (SHA512.hex_digit d) (list_ascii_of_string "0123456789abcdef").
Proof.
  unfold SHA512.hex_digit.
  destruct (get_In "0123456789abcdef" (Z.to_nat (Z.land d 15)))
    as [c [Hc Hin]].
  - change 15 with (Z.ones 4). rewrite Z.land_ones by lia.
    pose proof (Z.mod_pos_bound d (2 ^ 4) ltac:(lia)). simpl. lia.
  - now rewrite Hc.
Qed.

Lemma hex_of_bytes_shape bs :
  String.length (SHA512.hex_of_bytes bs) = (2 * List.length bs)%nat
  /\ Forall (fun c => In c (list_ascii_of_string "0123456789abcdef"))
            (list_ascii_of_string (SHA512.hex_of_bytes bs)).
Proof.
  induction bs as [|b bs [IHl IHf]]; cbn [SHA512.hex_of_bytes].
  - split; [reflexivity | constructor].
  - split.
    + cbn [String.length List.length]. rewrite IHl. lia.
    + cbn [list_ascii_of_string].
      constructor; [apply hex_digit_lowercase|].
      constructor; [apply hex_digit_lowercase | exact IHf].
Qed.

Lemma sha512hex_shape s :
  String.length (sha512hex s) = 128%nat
  /\ Forall (fun c => In c (list_ascii_of_string "0123456789abcdef"))
            (list_ascii_of_string (sha512hex s)).
Proof.
  unfold sha512hex, SHA512.hexdigest.
  destruct (hex_of_bytes_shape (SHA512.digest (encode s))) as [Hl Hf].
  split; [|exact Hf]. rewrite Hl, digest_length. reflexivity.
Qed.

(** X16: for every mapping with at least one parameter the signer does what
    the specification describes: it hashes [<rand>/<method>?], the parameters as
    [key=value] in strictly ascending key order joined by [&], and
    [#<secret>]; the signature is the six-character prefix followed by the
    128 lowercase hexadecimal digits of the SHA-512 digest. *)
Theorem api_signature_nonempty_mapping :
  forall SECRET draws method (params : dict string pyval),
    params <> [] -> NoDup (map fst params) ->
    let rand := rand_prefix draws in
    let items := SortedDict_items params in
    Permutation params items
    /\ StronglySorted key_lt items
    /\ hash_string SECRET rand method params
       = canonical_string SECRET rand method items
    /\ api_signature SECRET draws method params
       = rand ++ sha512hex (canonical_string SECRET rand method items)
    /\ String.length rand = 6%nat
    /\ String.length (sha512hex (canonical_string SECRET rand method items))
       = 128%nat
    /\ Forall (fun c => In c (list_ascii_of_string "0123456789abcdef"))
              (list_ascii_of_string
                 (sha512hex (canonical_string SECRET rand method items))).
Proof.
  intros SECRET draws method params Hne Hnd rand items.
  split; [now apply SortedDict_items_perm|].
  split; [now apply SortedDict_items_sorted|].
  split; [now apply hash_string_canonical|].
  split.
  - unfold api_signature. fold rand. now rewrite hash_string_canonical.
  - split; [reflexivity|]. apply sha512hex_shape.
Qed.

Example canonical_order_example :
  map fst (SortedDict_items
             (dict_literal String.eqb
                [("handle", PStr "x"); ("from", PInt 1); ("count", PInt 2)]))
  = ["count"; "from"; "handle"]
  /\ hash_string "s3cr3t" "abcdef" "user.status"
       (dict_literal String.eqb
          [("handle", PStr "x"); ("from", PInt 1); ("count", PInt 2)])
     = "abcdef/user.status?count=2&from=1&handle=x#s3cr3t".
Proof. split; reflexivity. Qed.

(** C1: the claim holds for every mapping with at least one parameter
    ([api_signature_nonempty_mapping]), but not for the empty mapping.  The
    slice [hash_string[:-1]] is taken whether or not a parameter was
    written, so with no parameter it removes the [?] that ends
    [<rand>/<method>?]: the hashed string is [<rand>/<method>#<secret>],
    which is not the canonical string [<rand>/<method>?#<secret>]. *)
Theorem api_signature_empty_mapping :
  forall SECRET draws method,
    let rand := rand_prefix draws in
    hash_string SECRET rand method [] = rand ++ "/" ++ method ++ "#" ++ SECRET
    /\ hash_string SECRET rand method []
       <> canonical_string SECRET rand method []
    /\ api_signature SECRET draws method []
       = rand ++ sha512hex (rand ++ "/" ++ method ++ "#" ++ SECRET).
Proof.
  intros SECRET draws method rand.
  split; [apply hash_string_empty|]. split.
  - rewrite hash_string_empty. unfold canonical_string. intros H.
    apply (f_equal String.length) in H.
    rewrite !str_length_app in H. simpl in H. lia.
  - unfold api_signature. fold rand. now rewrite hash_string_empty.
Qed.

Example api_signature_empty_mapping_example :
  api_signature "s3cr3t" (fun i => i) "user.status" []
  = "abcdef" ++ "9a19cc9f9ae1f39a74d9e3952def7e4543b919c0e4e79041ecf0b501e9bcce32137964b8e7d82870cd5469cc7f922f566f97741a7fdb6c2ee1f41b2b50abc792"
  /\ "abcdef" ++ sha512hex (canonical_string "s3cr3t" "abcdef" "user.status" [])
     = "abcdef" ++ "cb1a015912b9445a0a501958847bfcffe7382a0c628fe9a9c23f18d6fce69a0e691608c8e10294a34906e3a5297b0a2f9ffe0f34c53d54f70ec7c1028b5c3eec".
Proof. vm_compute. split; reflexivity. Qed.

(** C9: the signature is a function of the random prefix, the method, the
    parameter mapping and the secret.  Two computations that draw the same
    prefix and are given the same mapping (the same value under every key,
    whatever the order in which the keys were inserted) return the same
    string under the same secret. *)
Theorem api_signature_deterministic :
  forall SECRET draws1 draws2 method (params1 params2 : dict string pyval),
    rand_prefix draws1 = rand_prefix draws2 ->
    NoDup (map fst params1) -> NoDup (map fst params2) ->
    (forall k, dict_get String.eqb params1 k = dict_get String.eqb params2 k) ->
    api_signature SECRET draws1 method params1
    = api_signature SECRET draws2 method params2.
Proof.
  intros SECRET draws1 draws2 method params1 params2 Hrand Hnd1 Hnd2 Hget.
  unfold api_signature, hash_string.
  rewrite Hrand.
  now rewrite (SortedDict_items_ext params1 params2 Hnd1 Hnd2 Hget).
Qed.

Lemma api_signature_deterministic_witness :
  rand_prefix (fun i => i) = rand_prefix (fun i => (i + 62)%nat)
  /\ api_signature "s3cr3t" (fun i => i) "user.status"
       [("handle", PStr "x"); ("from", PInt 1)]
     = api_signature "s3cr3t" (fun i => (i + 62)%nat) "user.status"
       [("from", PInt 1); ("handle", PStr "x")].
Proof.
  split; [reflexivity|].
  apply api_signature_deterministic.
  - reflexivity.
  - repeat constructor; simpl; intuition discriminate.
  - repeat constructor; simpl; intuition discriminate.
  - intros k. simpl.
    destruct (String.eqb k "handle") eqn:E1;
      destruct (String.eqb k "from") eqn:E2; try reflexivity.
    apply String.eqb_eq in E1, E2. congruence.
Defined.

(** ** The request URL *)

(** C8: the URL requested by [get_user_status] holds blanks.  The string
    literal is continued over two lines with a backslash; the blank before
    the backslash and the twelve blanks that indent the next line are part
    of the literal, so thirteen blanks stand between the timestamp and
    [&apiSig=] for every handle, offset and count. *)
Theorem status_url_contains_blanks :
  forall KEY SECRET env (_handle : string) (_from _count : Z),
    In " "%char
       (list_ascii_of_string (status_url KEY SECRET env _handle _from _count))
    /\ exists api_sig,
         status_url KEY SECRET env _handle _from _count
         = ("https://codeforces.com/api/user.status?apiKey=" ++ KEY
              ++ "&time=" ++ str_of_int (unix_timestamp env))
             ++ "             "
             ++ ("&apiSig=" ++ api_sig ++ "&handle=" ++ _handle
                   ++ "&from=" ++ str_of_int _from
                   ++ "&count=" ++ str_of_int _count).
Proof.
  intros KEY SECRET env h f c. unfold status_url.
  generalize (api_signature SECRET (draws env) "user.status"
                (dict_literal String.eqb
                   [("apiKey", PStr KEY); ("handle", PStr h);
                    ("from", PInt f); ("count", PInt c);
                    ("time", PInt (unix_timestamp env))])).
  intros api_sig.
  assert (Hurl :
            request_url KEY "user.status" (unix_timestamp env) api_sig h f c
            = ("https://codeforces.com/api/user.status?apiKey=" ++ KEY
                 ++ "&time=" ++ str_of_int (unix_timestamp env))
                ++ "             "
                ++ ("&apiSig=" ++ api_sig ++ "&handle=" ++ h
                      ++ "&from=" ++ str_of_int f
                      ++ "&count=" ++ str_of_int c)).
  { unfold request_url, BASE_URL. rewrite !str_app_assoc. reflexivity. }
  split; [|exists api_sig; exact Hurl].
  rewrite Hurl, !list_ascii_of_string_app. apply in_or_app. right.
  apply in_or_app. left. simpl. now left.
Qed.

Example status_url_example :
  request_url "K" "user.status" 17 "SIG" "LKV0429" 1 1000
  = "https://codeforces.com/api/user.status?apiKey=K&time=17             &apiSig=SIG&handle=LKV0429&from=1&count=1000".
Proof. reflexivity. Qed.

(** The URL above is the one handed to the transport: whatever the
    transport does with it is what [get_user_status] does. *)
Lemma get_user_status_requests_status_url KEY SECRET env h f c e p :
  http_get_json env (status_url KEY SECRET env h f c) = Raise e ->
  get_user_status KEY SECRET env h f c p = (p, Raise e).
Proof.
  intros H. unfold get_user_status, mbind, lift. now rewrite H.
Qed.

(** ** A failed fetch *)

Lemma get_user_status_failed KEY SECRET env h f c reply msg p :
  http_get_json env (status_url KEY SECRET env h f c) = Ret reply ->
  status reply = Some "FAILED" ->
  comment reply = Some msg ->
  get_user_status KEY SECRET env h f c p
  = (mkProcess (stdout p ++ [msg])%list (files p), Ret None).
Proof.
  intros Hget Hst Hc. unfold get_user_status, mbind, lift.
  rewrite Hget, Hst. simpl. rewrite Hc. reflexivity.
Qed.

(** C2, as amended: when the reply has status "FAILED" and a comment, the
    fetch prints the comment and returns [None]; it raises nothing, and the
    value it returns carries no message.  The run writes no file: the files
    after [main] are the files before it. *)
Theorem failed_fetch_prints_comment_and_writes_nothing :
  forall KEY SECRET env (_handle : string) (_from _count : Z) reply msg p,
    http_get_json env (status_url KEY SECRET env _handle _from _count)
    = Ret reply ->
    http_get_json env (status_url KEY SECRET env "LKV0429" 1 1000)
    = Ret reply ->
    status reply = Some "FAILED" ->
    comment reply = Some msg ->
    get_user_status KEY SECRET env _handle _from _count p
    = (mkProcess (stdout p ++ [msg])%list (files p), Ret None)
    /\ files (fst (main KEY SECRET env p)) = files p
    /\ stdout (fst (main KEY SECRET env p)) = (stdout p ++ [msg])%list.
Proof.
  intros KEY SECRET env h f c reply msg p Hget Hmain Hst Hc.
  split; [now apply (get_user_status_failed KEY SECRET env h f c reply)|].
  unfold main, mbind.
  rewrite (get_user_status_failed KEY SECRET env "LKV0429" 1 1000 reply msg p
             Hmain Hst Hc).
  split; reflexivity.
Qed.

Lemma failed_fetch_prints_comment_and_writes_nothing_witness :
  get_user_status "K" "S" failing_env "tourist" 1 10
    (mkProcess [] [("data.json", DataDoc [sample_A1])])
  = (mkProcess ["wrong apiSig"] [("data.json", DataDoc [sample_A1])], Ret None)
  /\ files (fst (main "K" "S" failing_env
                   (mkProcess [] [("data.json", DataDoc [sample_A1])])))
     = [("data.json", DataDoc [sample_A1])]
  /\ stdout (fst (main "K" "S" failing_env
                    (mkProcess [] [("data.json", DataDoc [sample_A1])])))
     = ["wrong apiSig"].
Proof.
  apply (failed_fetch_prints_comment_and_writes_nothing
           "K" "S" failing_env "tourist" 1 10 failed_reply "wrong apiSig"
           (mkProcess [] [("data.json", DataDoc [sample_A1])]));
    reflexivity.
Defined.

(** C2 as stated fails: on the reply [{status: "FAILED", comment: "wrong
    apiSig"}] the fetch does not yield an error that carries the comment.
    It returns [None], and the error in which the run then ends is the
    [TypeError] of [parse_data(None)], whose message is not the comment. *)
Lemma failed_fetch_yields_no_error_value :
  let fetch := get_user_status "K" "S" failing_env "LKV0429" 1 1000
                 (mkProcess [] []) in
  let run := main "K" "S" failing_env (mkProcess [] []) in
  ~ (exists e, snd fetch = Raise e /\ exn_message e = "wrong apiSig")
  /\ snd fetch = Ret None
  /\ ~ (exists e, snd run = Raise e /\ exn_message e = "wrong apiSig")
  /\ snd run = Raise (TypeError "'NoneType' object is not iterable").
Proof.
  cbv zeta.
  assert (Hf : snd (get_user_status "K" "S" failing_env "LKV0429" 1 1000
                      (mkProcess [] [])) = Ret None) by reflexivity.
  assert (Hr : snd (main "K" "S" failing_env (mkProcess [] []))
               = Raise (TypeError "'NoneType' object is not iterable"))
    by reflexivity.
  split; [|split; [exact Hf|split; [|exact Hr]]].
  - intros [e [He _]]. rewrite Hf in He. discriminate.
  - intros [e [He Hm]]. rewrite Hr in He. injection He as <-.
    simpl in Hm. discriminate.
Qed.

(** * Further properties of the fetcher and of a whole run *)

Lemma files_after_three_writes (fs : dict string document) (d r t : document) :
  let fs' := dict_set String.eqb
               (dict_set String.eqb (dict_set String.eqb fs "data.json" d)
                         "rating.json" r)
               "tags.json" t in
  dict_get String.eqb fs' "data.json" = Some d
  /\ dict_get String.eqb fs' "rating.json" = Some r
  /\ dict_get String.eqb fs' "tags.json" = Some t
  /\ forall path,
       path <> "data.json" -> path <> "rating.json" -> path <> "tags.json" ->
       dict_get String.eqb fs' path = dict_get String.eqb fs path.
Proof.
  cbv zeta. repeat split.
  - rewrite !(dict_get_set_other String.eqb String.eqb_eq) by discriminate.
    apply (dict_get_set_same String.eqb String.eqb_eq).
  - rewrite (dict_get_set_other String.eqb String.eqb_eq) by discriminate.
    apply (dict_get_set_same String.eqb String.eqb_eq).
  - apply (dict_get_set_same String.eqb String.eqb_eq).
  - intros path H1 H2 H3.
    rewrite !(dict_get_set_other String.eqb String.eqb_eq) by congruence.
    reflexivity.
Qed.

(** X1: when [parse_data] runs to its end on a list of records, it has
    printed nothing; [data.json], [rating.json] and [tags.json] hold the
    three outputs of the aggregation, in place of whatever these files
    held, and every other file is as it was. *)
Theorem parse_data_file_contents :
  forall (data : list Submission) (p : process),
    snd (parse_data (Some data) p) = Ret tt ->
    exists out rc tc,
      aggregate data = Some (out, rc, tc)
      /\ stdout (fst (parse_data (Some data) p)) = stdout p
      /\ dict_get String.eqb (files (fst (parse_data (Some data) p))) "data.json"
         = Some (DataDoc out)
      /\ dict_get String.eqb (files (fst (parse_data (Some data) p)))
                  "rating.json"
         = Some (RatingDoc rc)
      /\ dict_get String.eqb (files (fst (parse_data (Some data) p))) "tags.json"
         = Some (TagsDoc tc)
      /\ forall path,
           path <> "data.json" -> path <> "rating.json" -> path <> "tags.json" ->
           dict_get String.eqb (files (fst (parse_data (Some data) p))) path
           = dict_get String.eqb (files p) path.
Proof.
  intros data p _.
  exists (output_list data), (ratings_of (output_list data)),
    (tags_of (output_list data)).
  split; [apply aggregate_eq|].
  rewrite parse_data_runs. cbn [fst snd stdout files].
  split; [reflexivity|].
  apply files_after_three_writes.
Qed.

Lemma parse_data_file_contents_witness :
  snd (parse_data (Some [sample_A1; sample_B; sample_A2]) sample_process)
  = Ret tt
  /\ dict_get String.eqb
       (files (fst (parse_data (Some [sample_A1; sample_B; sample_A2])
                               sample_process))) "data.json"
     = Some (DataDoc [sample_A1])
  /\ dict_get String.eqb
       (files (fst (parse_data (Some [sample_A1; sample_B; sample_A2])
                               sample_process))) "notes.txt"
     = Some (DataDoc [sample_P0]).
Proof.
  assert (Hrun : snd (parse_data (Some [sample_A1; sample_B; sample_A2])
                                 sample_process) = Ret tt) by reflexivity.
  split; [exact Hrun|].
  destruct (parse_data_file_contents [sample_A1; sample_B; sample_A2]
              sample_process Hrun)
    as [out [rc [tc [Hagg [_ [Hd [_ [_ Hother]]]]]]]].
  assert (Hout : out = [sample_A1]).
  { assert (E : aggregate [sample_A1; sample_B; sample_A2]
                = Some ([sample_A1], [(1200, 1%nat)], [("dp", 1%nat)]))
      by reflexivity.
    rewrite E in Hagg. now injection Hagg as <- _ _. }
  split.
  - rewrite Hd, Hout. reflexivity.
  - rewrite (Hother "notes.txt") by discriminate. reflexivity.
Defined.

Lemma get_user_status_ok KEY SECRET env h f c reply st data p :
  http_get_json env (status_url KEY SECRET env h f c) = Ret reply ->
  status reply = Some st -> st <> "FAILED" ->
  result reply = Some data ->
  get_user_status KEY SECRET env h f c p = (p, Ret (Some data)).
Proof.
  intros Hget Hst Hne Hres. unfold get_user_status, mbind, lift.
  rewrite Hget, Hst. apply String.eqb_neq in Hne. rewrite Hne, Hres.
  reflexivity.
Qed.

(** X2: the status of a reply is compared with "FAILED" only, never with
    "OK": when the reply has any other status and a [result] list, the fetch
    returns that list without printing or writing anything, and the run
    does what [parse_data] does on that list. *)
Theorem main_hands_result_to_parse_data :
  forall KEY SECRET env reply st data p,
    http_get_json env (status_url KEY SECRET env "LKV0429" 1 1000)
    = Ret reply ->
    status reply = Some st -> st <> "FAILED" ->
    result reply = Some data ->
    get_user_status KEY SECRET env "LKV0429" 1 1000 p = (p, Ret (Some data))
    /\ main KEY SECRET env p = parse_data (Some data) p.
Proof.
  intros KEY SECRET env reply st data p Hget Hst Hne Hres.
  assert (Hfetch : get_user_status KEY SECRET env "LKV0429" 1 1000 p
                   = (p, Ret (Some data)))
    by exact (get_user_status_ok KEY SECRET env "LKV0429" 1 1000
                reply st data p Hget Hst Hne Hres).
  split; [exact Hfetch|].
  unfold main, mbind. now rewrite Hfetch.
Qed.

Lemma main_hands_result_to_parse_data_witness :
  get_user_status "K" "S" passing_env "LKV0429" 1 1000 (mkProcess [] [])
  = (mkProcess [] [], Ret (Some [sample_P1; sample_P0]))
  /\ main "K" "S" passing_env (mkProcess [] [])
     = parse_data (Some [sample_P1; sample_P0]) (mkProcess [] []).
Proof.
  apply (main_hands_result_to_parse_data "K" "S" passing_env
           (mkReply (Some "PENDING") (Some [sample_P1; sample_P0]) None)
           "PENDING" [sample_P1; sample_P0] (mkProcess [] [])).
  - reflexivity.
  - reflexivity.
  - discriminate.
  - reflexivity.
Defined.

(** X3: a reply that lacks a field the code reads ends the run with a
    [KeyError] naming that field: [status] when it is absent, [comment] when
    the status is "FAILED", [result] otherwise.  Nothing is printed and no
    file is written. *)
Theorem main_reply_missing_field :
  forall KEY SECRET env reply p,
    http_get_json env (status_url KEY SECRET env "LKV0429" 1 1000)
    = Ret reply ->
    forall field,
      (status reply = None /\ field = "status")
      \/ (status reply = Some "FAILED" /\ comment reply = None
          /\ field = "comment")
      \/ ((exists st, status reply = Some st /\ st <> "FAILED")
          /\ result reply = None /\ field = "result") ->
      main KEY SECRET env p = (p, Raise (KeyError field)).
Proof.
  intros KEY SECRET env reply p Hget field Hcase.
  unfold main, get_user_status, mbind, lift. rewrite Hget.
  destruct Hcase as [[Hst ->] | [[Hst [Hc ->]] | [[st [Hst Hne]] [Hres ->]]]].
  - now rewrite Hst.
  - rewrite Hst. simpl. now rewrite Hc.
  - rewrite Hst. apply String.eqb_neq in Hne. now rewrite Hne, Hres.
Qed.

Lemma main_reply_missing_field_witness :
  main "K" "S"
       (mkEnvironment 17 (fun i => i)
          (fun _ => Ret (mkReply (Some "OK") None None)))
       (mkProcess [] [])
  = (mkProcess [] [], Raise (KeyError "result")).
Proof.
  apply (main_reply_missing_field "K" "S"
           (mkEnvironment 17 (fun i => i)
              (fun _ => Ret (mkReply (Some "OK") None None)))
           (mkReply (Some "OK") None None) (mkProcess [] [])).
  - reflexivity.
  - right. right. split; [|split; reflexivity].
    exists "OK". split; [reflexivity | discriminate].
Defined.

(** X4: an exception raised by the request or by the decoding of the reply
    passes through [get_user_status] and [main] unchanged; nothing is
    printed and no file is written. *)
Theorem main_transport_error :
  forall KEY SECRET env e p,
    http_get_json env (status_url KEY SECRET env "LKV0429" 1 1000)
    = Raise e ->
    get_user_status KEY SECRET env "LKV0429" 1 1000 p = (p, Raise e)
    /\ main KEY SECRET env p = (p, Raise e).
Proof.
  intros KEY SECRET env e p Hget.
  assert (H : get_user_status KEY SECRET env "LKV0429" 1 1000 p = (p, Raise e)).
  { unfold get_user_status, mbind, lift. now rewrite Hget. }
  split; [exact H|]. unfold main, mbind. now rewrite H.
Qed.

Lemma main_transport_error_witness :
  main "K" "S"
       (mkEnvironment 17 (fun i => i)
          (fun _ => Raise (RequestError "timed out")))
       (mkProcess [] [("data.json", DataDoc [sample_A1])])
  = (mkProcess [] [("data.json", DataDoc [sample_A1])],
     Raise (RequestError "timed out")).
Proof.
  apply (main_transport_error "K" "S"
           (mkEnvironment 17 (fun i => i)
              (fun _ => Raise (RequestError "timed out")))).
  reflexivity.
Defined.

Lemma get_user_status_cases KEY SECRET env h f c p :
  (exists data, get_user_status KEY SECRET env h f c p = (p, Ret (Some data)))
  \/ (exists reply msg,
        http_get_json env (status_url KEY SECRET env h f c) = Ret reply
        /\ status reply = Some "FAILED" /\ comment reply = Some msg
        /\ get_user_status KEY SECRET env h f c p
           = (mkProcess (stdout p ++ [msg])%list (files p), Ret None))
  \/ (exists e, get_user_status KEY SECRET env h f c p = (p, Raise e)).
Proof.
  unfold get_user_status, mbind, lift.
  destruct (http_get_json env (status_url KEY SECRET env h f c)) as [reply|e];
    [|right; right; now exists e].
  destruct (status reply) as [st|] eqn:Hst;
    [|right; right; eexists; reflexivity].
  destruct (String.eqb st "FAILED") eqn:Est.
  - apply String.eqb_eq in Est. subst st.
    destruct (comment reply) as [msg|] eqn:Hc.
    + right. left. exists reply, msg. auto.
    + right. right. eexists. reflexivity.
  - destruct (result reply) as [r|].
    + left. now exists r.
    + right. right. eexists. reflexivity.
Qed.

(** X5: [get_user_status] never writes a file, and it prints at most one
    line: when it prints, the reply had the status "FAILED" and the line is
    the comment of that reply. *)
Theorem get_user_status_effects :
  forall KEY SECRET env (_handle : string) (_from _count : Z) p,
    let run := get_user_status KEY SECRET env _handle _from _count p in
    files (fst run) = files p
    /\ (stdout (fst run) = stdout p
        \/ exists reply msg,
             http_get_json env
               (status_url KEY SECRET env _handle _from _count) = Ret reply
             /\ status reply = Some "FAILED"
             /\ comment reply = Some msg
             /\ stdout (fst run) = (stdout p ++ [msg])%list).
Proof.
  intros KEY SECRET env h f c p. cbv zeta.
  destruct (get_user_status_cases KEY SECRET env h f c p)
    as [[data Hrun] | [[reply [msg [Hget [Hst [Hc Hrun]]]]] | [e Hrun]]];
    rewrite Hrun; cbn [fst snd files stdout].
  - split; [reflexivity | now left].
  - split; [reflexivity|]. right. exists reply, msg. auto.
  - split; [reflexivity | now left].
Qed.



(** * Further properties of the aggregator *)

Lemma or_iff_added (A B C D : Prop) :
  (A \/ B \/ C \/ False <-> D \/ B \/ C \/ False) ->
  ((C \/ A) \/ B <-> (C \/ D) \/ B).
Proof.
  intros [H1 H2]. split.
  - intros [[Hc|Ha]|Hb].
    + left. now left.
    + destruct (H1 (or_introl Ha)) as [Hd|[Hb|[Hc|[]]]];
        [left; now right | now right | left; now left].
    + now right.
  - intros [[Hc|Hd]|Hb].
    + left. now left.
    + destruct (H2 (or_introl Hd)) as [Ha|[Hb|[Hc|[]]]];
        [left; now right | now right | left; now left].
    + now right.
Qed.

Lemma filter_st_names l : forall exist_name n,
  In n (map problem_name (fst (filter_st name_is_new exist_name l)))
  \/ In n exist_name
  <-> In n (map problem_name l) \/ In n exist_name.
Proof.
  induction l as [|y l IH]; intros exist_name n; [reflexivity|].
  rewrite filter_st_cons.
  destruct (existsb (String.eqb (name (problem y))) exist_name) eqn:Ex.
  - apply existsb_eqb_In in Ex. rewrite IH. cbn [map In].
    change (problem_name y) with (name (problem y)).
    split.
    + intros [H|H]; [left; now right | now right].
    + intros [[H|H]|H]; [right; now subst | now left | now right].
  - cbn [map In]. change (problem_name y) with (name (problem y)).
    specialize (IH (exist_name ++ [name (problem y)])%list n).
    rewrite in_app_iff in IH. cbn [In] in IH.
    apply or_iff_added. exact IH.
Qed.

Lemma dedup_by_name_names l n :
  In n (map problem_name (dedup_by_name l)) <-> In n (map problem_name l).
Proof.
  pose proof (filter_st_names l [] n) as H. cbn [In] in H.
  unfold dedup_by_name. tauto.
Qed.

Lemma filter_st_length l : forall exist_name,
  (List.length (fst (filter_st name_is_new exist_name l)) <= List.length l)%nat.
Proof.
  induction l as [|y l IH]; intros exist_name; [simpl; lia|].
  rewrite filter_st_cons. destruct (existsb _ exist_name); simpl.
  - specialize (IH exist_name). lia.
  - specialize (IH (exist_name ++ [name (problem y)])%list). lia.
Qed.

Lemma output_list_incl data x : In x (output_list data) -> In x data.
Proof.
  unfold output_list. intros H.
  apply (Permutation_in x (Permutation_sym (sort_submissions_perm _))) in H.
  apply dedup_by_name_incl in H. unfold filter_accepted in H.
  now apply filter_In in H.
Qed.

(** X7: the written list is drawn from the input and covers it: every
    record of the list is a record of the input, the list is no longer than
    the input, and a problem name occurs in the list exactly when some
    accepted, rated record of the input bears it. *)
Theorem output_covers_accepted_problems :
  forall data : list Submission,
  exists out rc tc,
    aggregate data = Some (out, rc, tc)
    /\ (forall x, In x out -> In x data)
    /\ (List.length out <= List.length data)%nat
    /\ (forall n,
          In n (map problem_name out)
          <-> exists x, In x data /\ accepted x = true /\ problem_name x = n).
Proof.
  intros data.
  exists (output_list data), (ratings_of (output_list data)),
    (tags_of (output_list data)).
  split; [apply aggregate_eq|].
  split; [apply output_list_incl|]. split.
  - unfold output_list.
    rewrite <- (Permutation_length (sort_submissions_perm _)).
    unfold dedup_by_name.
    pose proof (filter_st_length (filter_accepted data) []) as H1.
    pose proof (filter_length_le accepted data) as H2.
    unfold filter_accepted in *. lia.
  - intros n. unfold output_list.
    assert (Hp : Permutation
                   (map problem_name (dedup_by_name (filter_accepted data)))
                   (map problem_name
                      (sort_submissions (dedup_by_name (filter_accepted data)))))
      by apply Permutation_map, sort_submissions_perm.
    split.
    + intros Hin.
      apply (Permutation_in n (Permutation_sym Hp)) in Hin.
      apply (proj1 (dedup_by_name_names _ _)) in Hin.
      apply in_map_iff in Hin.
      destruct Hin as [x [Hn Hx]]. unfold filter_accepted in Hx.
      apply filter_In in Hx. exists x. tauto.
    + intros [x [Hx [Hacc Hn]]].
      eapply Permutation_in; [exact Hp|].
      apply dedup_by_name_names, in_map_iff. exists x.
      split; [exact Hn|]. apply filter_In. auto.
Qed.

Lemma filter_st_app {A S : Type} (f : S -> A -> bool * S) (l1 l2 : list A) :
  forall s,
    filter_st f s (l1 ++ l2)%list
    = let (k1, s1) := filter_st f s l1 in
      let (k2, s2) := filter_st f s1 l2 in
      ((k1 ++ k2)%list, s2).
Proof.
  induction l1 as [|x l1 IH]; intros s; cbn [filter_st app].
  - destruct (filter_st f s l2). reflexivity.
  - destruct (f s x) as [keep s'] eqn:E. rewrite IH.
    destruct (filter_st f s' l1) as [k1 s1].
    destruct (filter_st f s1 l2) as [k2 s2].
    destruct keep; reflexivity.
Qed.

Lemma filter_st_store l : forall exist_name n,
  In n (snd (filter_st name_is_new exist_name l))
  <-> In n exist_name \/ In n (map problem_name l).
Proof.
  induction l as [|y l IH]; intros exist_name n; cbn [filter_st].
  - simpl. tauto.
  - unfold name_is_new at 1.
    destruct (existsb (String.eqb (name (problem y))) exist_name) eqn:Ex;
      cbn [negb].
    + specialize (IH exist_name n).
      destruct (filter_st name_is_new exist_name l) as [kept s2].
      cbn [snd] in *. rewrite IH. cbn [map In].
      apply existsb_eqb_In in Ex. unfold problem_name at 2.
      intuition (subst; auto).
    + specialize (IH (exist_name ++ [name (problem y)])%list n).
      destruct (filter_st name_is_new _ l) as [kept s2].
      cbn [snd] in *. rewrite IH, in_app_iff. cbn [map In].
      unfold problem_name at 2. tauto.
Qed.

Lemma dedup_by_name_drop_repeat l1 x l2 :
  In (problem_name x) (map problem_name l1) ->
  dedup_by_name (l1 ++ x :: l2)%list = dedup_by_name (l1 ++ l2)%list.
Proof.
  intros Hin. unfold dedup_by_name. rewrite !filter_st_app.
  pose proof (filter_st_store l1 [] (problem_name x)) as Hstore.
  destruct (filter_st name_is_new [] l1) as [k1 s1]. cbn [snd] in Hstore.
  assert (Hs : In (problem_name x) s1) by (apply Hstore; now right).
  pose proof (filter_st_cons s1 x l2) as Hc.
  apply existsb_eqb_In in Hs. unfold problem_name in Hs. rewrite Hs in Hc.
  destruct (filter_st name_is_new s1 (x :: l2)) as [k2 s2].
  destruct (filter_st name_is_new s1 l2) as [k2' s2'].
  cbn [fst] in *. now rewrite Hc.
Qed.

(** X8: submitting again to a problem that an earlier accepted, rated
    record of the input already covers changes nothing: with or without the
    later record, whatever its verdict, the three outputs are the same. *)
Theorem later_submission_to_covered_problem_ignored :
  forall (l1 l2 : list Submission) (x : Submission),
    (exists y, In y l1 /\ accepted y = true
               /\ problem_name y = problem_name x) ->
    aggregate (l1 ++ x :: l2)%list = aggregate (l1 ++ l2)%list.
Proof.
  intros l1 l2 x [y [Hy [Hacc Hn]]].
  rewrite !aggregate_eq. unfold output_list.
  destruct (accepted x) eqn:Ex.
  - assert (Hf : filter_accepted (l1 ++ x :: l2)%list
                 = (filter_accepted l1 ++ x :: filter_accepted l2)%list).
    { unfold filter_accepted. rewrite filter_app. simpl. now rewrite Ex. }
    assert (Hf' : filter_accepted (l1 ++ l2)%list
                  = (filter_accepted l1 ++ filter_accepted l2)%list).
    { unfold filter_accepted. now rewrite filter_app. }
    rewrite Hf, Hf', dedup_by_name_drop_repeat; [reflexivity|].
    rewrite <- Hn. apply in_map. apply filter_In. auto.
  - now rewrite (filter_accepted_drop l1 x l2 Ex).
Qed.

Lemma later_submission_to_covered_problem_ignored_witness :
  aggregate ([sample_A1; sample_B] ++ sample_A2 :: [sample_P1])%list
  = aggregate ([sample_A1; sample_B] ++ [sample_P1])%list.
Proof.
  apply later_submission_to_covered_problem_ignored.
  exists sample_A1. split; [now left | split; reflexivity].
Defined.

Lemma StronglySorted_snoc {A : Type} (R : A -> A -> Prop) (l : list A) (a : A) :
  StronglySorted R l -> Forall (fun x => R x a) l ->
  StronglySorted R (l ++ [a])%list.
Proof.
  induction 1 as [|x l Hs IH Hall]; intros Hlt; simpl.
  - repeat constructor.
  - inversion Hlt as [|? ? Hx Hl]; subst. constructor; [now apply IH|].
    apply Forall_app. split; [exact Hall | now constructor].
Qed.

(** Keys met in ascending order are entered in ascending order. *)
Lemma tally_keys_ascending (ks : list Z) : forall d : dict Z nat,
  StronglySorted Z.le ks ->
  StronglySorted Z.lt (map fst d) ->
  (forall k k', In k (map fst d) -> In k' ks -> k <= k') ->
  StronglySorted Z.lt (map fst (tally Z.eqb ks d)).
Proof.
  induction ks as [|a ks IH]; intros d Hks Hd Hle; [exact Hd|].
  change (tally Z.eqb (a :: ks) d) with (tally Z.eqb ks (count_one Z.eqb d a)).
  inversion Hks as [|? ? Hks' Ha]; subst. rewrite Forall_forall in Ha.
  assert (Hkeys : map fst (count_one Z.eqb d a)
                  = if dict_mem Z.eqb d a then map fst d
                    else (map fst d ++ [a])%list).
  { unfold count_one. destruct (dict_get Z.eqb d a); apply dict_set_keys. }
  apply IH; [exact Hks' | |]; rewrite Hkeys; unfold dict_mem;
    destruct (dict_get Z.eqb d a) eqn:E.
  - exact Hd.
  - apply StronglySorted_snoc; [exact Hd|].
    apply (dict_get_none_notin Z.eqb Z.eqb_eq) in E.
    apply Forall_forall. intros k Hk.
    assert (k <= a) by (apply Hle; [exact Hk | now left]).
    assert (k <> a) by (intros ->; contradiction). lia.
  - intros k k' Hk Hk'. apply Hle; [exact Hk | now right].
  - intros k k' Hk Hk'. apply in_app_or in Hk.
    destruct Hk as [Hk | [<- | []]].
    + apply Hle; [exact Hk | now right].
    + now apply Ha.
Qed.

Lemma key_of_sorted (l : list Submission) :
  StronglySorted rating_le l -> StronglySorted Z.le (map key_of l).
Proof.
  induction 1 as [|x l Hs IH Hall]; simpl; constructor; [exact IH|].
  apply Forall_forall. intros k Hk. apply in_map_iff in Hk.
  destruct Hk as [y [<- Hy]]. rewrite Forall_forall in Hall.
  destruct (Hall y Hy) as [rx [ry [Hx [Hy' Hle]]]].
  unfold key_of. now rewrite Hx, Hy'.
Qed.

(** X9: the rating counts list the ratings in strictly ascending order,
    each rating once: the counting loop walks the sorted list, so a rating
    enters the dictionary before every larger one. *)
Theorem rating_counts_ascending :
  forall data : list Submission,
  exists out rc tc,
    aggregate data = Some (out, rc, tc)
    /\ StronglySorted Z.lt (map fst rc).
Proof.
  intros data.
  exists (output_list data), (ratings_of (output_list data)),
    (tags_of (output_list data)).
  split; [apply aggregate_eq|].
  unfold ratings_of. apply tally_keys_ascending.
  - apply key_of_sorted, output_list_sorted.
  - constructor.
  - intros k k' [].
Qed.

Lemma occurrences_pos_In (t : string) (l : list string) :
  occurrences String.eqb t l <> 0%nat <-> In t l.
Proof.
  unfold occurrences. induction l as [|a l IH]; simpl; [tauto|].
  destruct (String.eqb t a) eqn:E; simpl.
  - apply String.eqb_eq in E. subst. split; [now left | lia].
  - apply String.eqb_neq in E. rewrite IH. split; [now right|].
    intros [H|H]; [congruence | exact H].
Qed.

(** X10: the tag counts have one entry per tag, the tags that have an entry
    are exactly the tags of the records of the written list, and the counts
    add up to the number of tag entries of these records. *)
Theorem tag_counts_cover_output_tags :
  forall data : list Submission,
  exists out rc tc,
    aggregate data = Some (out, rc, tc)
    /\ NoDup (map fst tc)
    /\ (forall t, In t (map fst tc)
                  <-> exists x, In x out /\ In t (tags (problem x)))
    /\ dict_total tc
       = List.length (flat_map (fun x => tags (problem x)) out).
Proof.
  intros data.
  exists (output_list data), (ratings_of (output_list data)),
    (tags_of (output_list data)).
  split; [apply aggregate_eq|]. unfold tags_of. split; [|split].
  - apply (tally_NoDup String.eqb String.eqb_eq). constructor.
  - intros t.
    pose proof (dict_get_none_notin String.eqb String.eqb_eq
                  (tally String.eqb
                     (flat_map (fun x => tags (problem x)) (output_list data))
                     []) t) as Hnone.
    rewrite (tally_get String.eqb String.eqb_eq) in Hnone. cbn [dict_get] in Hnone.
    pose proof (occurrences_pos_In t
                  (flat_map (fun x => tags (problem x)) (output_list data)))
      as Hocc.
    rewrite in_flat_map in Hocc.
    destruct (occurrences String.eqb t
                (flat_map (fun x => tags (problem x)) (output_list data))
              =? 0)%nat eqn:E.
    + apply Nat.eqb_eq in E. split.
      * intros Hin. exfalso. now apply (proj1 Hnone).
      * intros Hex. apply Hocc in Hex. contradiction.
    + apply Nat.eqb_neq in E. split.
      * intros _. now apply Hocc.
      * intros _.
        destruct (in_dec string_dec t
                    (map fst (tally String.eqb
                                (flat_map (fun x => tags (problem x))
                                          (output_list data)) [])))
          as [Hin|Hnin]; [exact Hin|].
        apply Hnone in Hnin. discriminate.
  - rewrite tally_total. simpl. lia.
Qed.

Lemma dedup_by_name_nil l : dedup_by_name l = [] -> l = [].
Proof.
  destruct l as [|x l]; [reflexivity|].
  unfold dedup_by_name. rewrite filter_st_cons. simpl. discriminate.
Qed.

(** X11: the written list is empty exactly when the input holds no
    accepted, rated record (the empty input included), and then the rating
    counts and the tag counts are empty dictionaries. *)
Theorem empty_list_iff_nothing_accepted :
  forall data : list Submission,
  exists out rc tc,
    aggregate data = Some (out, rc, tc)
    /\ (out = [] <-> Forall (fun x => accepted x = false) data)
    /\ (out = [] -> rc = [] /\ tc = []).
Proof.
  intros data.
  exists (output_list data), (ratings_of (output_list data)),
    (tags_of (output_list data)).
  split; [apply aggregate_eq|]. split; [split|].
  - intros Hout. unfold output_list in Hout.
    assert (Hd : dedup_by_name (filter_accepted data) = []).
    { pose proof (sort_submissions_perm (dedup_by_name (filter_accepted data)))
        as Hp.
      rewrite Hout in Hp. now apply Permutation_sym, Permutation_nil in Hp. }
    apply dedup_by_name_nil in Hd.
    apply Forall_forall. intros x Hx.
    destruct (accepted x) eqn:E; [|reflexivity].
    assert (Hin : In x (filter_accepted data)) by (apply filter_In; auto).
    rewrite Hd in Hin. contradiction.
  - intros H.
    assert (Hf : filter_accepted data = []).
    { unfold filter_accepted. induction H as [|x l Hx _ IH]; simpl.
      - reflexivity.
      - now rewrite Hx. }
    unfold output_list. rewrite Hf. reflexivity.
  - intros Hout. rewrite Hout. split; reflexivity.
Qed.

(** * Further properties of the signer *)

(** X12: whatever the method and the parameters, the empty mapping
    included, a signature is 134 characters long: six characters drawn from
    the letters and digits, followed by 128 lowercase hexadecimal digits,
    the SHA-512 digest of the string built with these same six
    characters. *)
Theorem api_signature_format :
  forall SECRET draws method (params : dict string pyval),
  exists rand digest,
    api_signature SECRET draws method params = rand ++ digest
    /\ String.length (api_signature SECRET draws method params) = 134%nat
    /\ String.length rand = 6%nat
    /\ Forall (fun c => In c (list_ascii_of_string (ascii_letters ++ digits)))
              (list_ascii_of_string rand)
    /\ String.length digest = 128%nat
    /\ Forall (fun c => In c (list_ascii_of_string "0123456789abcdef"))
              (list_ascii_of_string digest)
    /\ digest = sha512hex (hash_string SECRET rand method params).
Proof.
  intros SECRET draws method params.
  exists (rand_prefix draws),
    (sha512hex (hash_string SECRET (rand_prefix draws) method params)).
  destruct (sha512hex_shape
              (hash_string SECRET (rand_prefix draws) method params))
    as [Hlen Hhex].
  split; [reflexivity|]. split.
  - unfold api_signature. rewrite str_length_app, Hlen, rand_prefix_length.
    reflexivity.
  - split; [apply rand_prefix_length|].
    split; [apply rand_prefix_alphabet|]. auto.
Qed.

Lemma item_of_same_text params1 params2 :
  Forall2 same_text params1 params2 ->
  forall k, map render_param (item_of params1 k)
            = map render_param (item_of params2 k).
Proof.
  unfold item_of.
  induction 1 as [|[k1 v1] [k2 v2] l1 l2 [Hk Hv] _ IH]; intros k; simpl in *.
  - reflexivity.
  - subst k2. destruct (String.eqb k k1) eqn:E.
    + simpl. unfold render_param. simpl. now rewrite Hv.
    + apply IH.
Qed.

Lemma same_text_keys params1 params2 :
  Forall2 same_text params1 params2 -> map fst params1 = map fst params2.
Proof.
  induction 1 as [|a b l1 l2 [Hk _] _ IH]; simpl; [reflexivity|].
  now rewrite Hk, IH.
Qed.

Lemma SortedDict_items_same_text params1 params2 :
  Forall2 same_text params1 params2 ->
  map render_param (SortedDict_items params1)
  = map render_param (SortedDict_items params2).
Proof.
  intros H. unfold SortedDict_items.
  rewrite <- (same_text_keys _ _ H).
  induction (sorted_keys (map fst params1)) as [|k ks IH]; [reflexivity|].
  cbn [flat_map]. rewrite !map_app, IH.
  now rewrite (item_of_same_text _ _ H k).
Qed.

(** X13: the signer reads a parameter value only through its text, as the
    f-string renders it: two mappings with the same keys whose values print
    alike (the integer 1 and the string "1") get the same signature. *)
Theorem api_signature_reads_values_as_text :
  forall SECRET draws method (params1 params2 : dict string pyval),
    Forall2 (fun a b => fst a = fst b
                        /\ format_value (snd a) = format_value (snd b))
            params1 params2 ->
    api_signature SECRET draws method params1
    = api_signature SECRET draws method params2.
Proof.
  intros SECRET draws method params1 params2 H.
  unfold api_signature, hash_string. rewrite !fold_params_text.
  now rewrite (SortedDict_items_same_text params1 params2 H).
Qed.

Lemma api_signature_reads_values_as_text_witness :
  api_signature "s3cr3t" (fun i => i) "user.status"
    [("from", PInt 1); ("handle", PStr "x")]
  = api_signature "s3cr3t" (fun i => i) "user.status"
    [("from", PStr "1"); ("handle", PStr "x")].
Proof.
  apply api_signature_reads_values_as_text.
  repeat constructor.
Defined.

(** X14: values are written into the hashed string as they are, with no
    escaping of [&] or [=]: one parameter whose value spells out a second
    parameter is signed exactly like the two parameters. *)
Theorem api_signature_does_not_escape_values :
  forall SECRET draws method (k1 k2 v1 v2 : string),
    String.ltb k1 k2 = true ->
    api_signature SECRET draws method
      [(k1, PStr (v1 ++ "&" ++ k2 ++ "=" ++ v2))]
    = api_signature SECRET draws method [(k1, PStr v1); (k2, PStr v2)].
Proof.
  intros SECRET draws method k1 k2 v1 v2 Hlt.
  assert (Hle : String.leb k1 k2 = true).
  { apply (proj2 (str_le_cases k1 k2)). now left. }
  assert (Hne : String.eqb k2 k1 = false).
  { apply String.eqb_neq. intros ->. now apply (str_lt_irrefl k1). }
  assert (H1 : SortedDict_items [(k1, PStr (v1 ++ "&" ++ k2 ++ "=" ++ v2))]
               = [(k1, PStr (v1 ++ "&" ++ k2 ++ "=" ++ v2))]).
  { unfold SortedDict_items, item_of. cbn [map fst sorted_keys fold_right
      key_insert flat_map dict_get]. now rewrite String.eqb_refl. }
  assert (H2 : SortedDict_items [(k1, PStr v1); (k2, PStr v2)]
               = [(k1, PStr v1); (k2, PStr v2)]).
  { unfold SortedDict_items, item_of. cbn [map fst sorted_keys fold_right
      key_insert]. rewrite Hle. cbn [flat_map dict_get].
    now rewrite !String.eqb_refl, Hne. }
  assert (Hhash : forall rand,
             hash_string SECRET rand method
               [(k1, PStr (v1 ++ "&" ++ k2 ++ "=" ++ v2))]
             = hash_string SECRET rand method [(k1, PStr v1); (k2, PStr v2)]).
  { intros rand. unfold hash_string. rewrite !fold_params_text, H1, H2.
    cbn [map amp_terminated]. unfold render_param.
    cbn [fst snd format_value].
    do 2 f_equal. rewrite !str_app_assoc. reflexivity. }
  unfold api_signature. rewrite Hhash. reflexivity.
Qed.

Lemma api_signature_does_not_escape_values_witness :
  api_signature "s3cr3t" (fun i => i) "user.status"
    [("count", PStr ("5" ++ "&" ++ "from" ++ "=" ++ "1"))]
  = api_signature "s3cr3t" (fun i => i) "user.status"
    [("count", PStr "5"); ("from", PStr "1")].
Proof.
  apply api_signature_does_not_escape_values. reflexivity.
Defined.

(** X15: what [get_user_status] signs.  The signature put into the URL is
    the six-character prefix followed by the digest of
    [<rand>/user.status?apiKey=..&count=..&from=..&handle=..&time=..#<secret>]:
    the five parameters in ascending key order, with the values that the
    URL carries. *)
Theorem get_user_status_signed_string :
  forall KEY SECRET env (_handle : string) (_from _count : Z),
    let rand := rand_prefix (draws env) in
    let timestamp := unix_timestamp env in
    status_url KEY SECRET env _handle _from _count
    = request_url KEY "user.status" timestamp
        (rand ++ sha512hex
                   (rand ++ "/user.status?apiKey=" ++ KEY
                         ++ "&count=" ++ str_of_int _count
                         ++ "&from=" ++ str_of_int _from
                         ++ "&handle=" ++ _handle
                         ++ "&time=" ++ str_of_int timestamp
                         ++ "#" ++ SECRET))
        _handle _from _count.
Proof.
  intros KEY SECRET env h f c. cbv zeta.
  assert (Hitems :
            SortedDict_items
              (dict_literal String.eqb
                 [("apiKey", PStr KEY); ("handle", PStr h); ("from", PInt f);
                  ("count", PInt c); ("time", PInt (unix_timestamp env))])
            = [("apiKey", PStr KEY); ("count", PInt c); ("from", PInt f);
               ("handle", PStr h); ("time", PInt (unix_timestamp env))])
    by reflexivity.
  assert (Hhash :
            hash_string SECRET (rand_prefix (draws env)) "user.status"
              (dict_literal String.eqb
                 [("apiKey", PStr KEY); ("handle", PStr h); ("from", PInt f);
                  ("count", PInt c); ("time", PInt (unix_timestamp env))])
            = rand_prefix (draws env) ++ "/user.status?apiKey=" ++ KEY
                ++ "&count=" ++ str_of_int c
                ++ "&from=" ++ str_of_int f
                ++ "&handle=" ++ h
                ++ "&time=" ++ str_of_int (unix_timestamp env)
                ++ "#" ++ SECRET).
  { rewrite hash_string_canonical by discriminate.
    rewrite Hitems. unfold canonical_string.
    cbn [map join_amp]. unfold render_param.
    cbn [fst snd format_value].
    rewrite !str_app_assoc. reflexivity. }
  unfold status_url, api_signature. rewrite Hhash. reflexivity.
Qed.

Lemma api_signature_nonempty_mapping_witness :
  sample_params <> []
  /\ NoDup (map fst sample_params)
  /\ map fst (SortedDict_items sample_params) = ["count"; "from"; "handle"]
  /\ hash_string "s3cr3t" (rand_prefix (fun i => i)) "user.status" sample_params
     = canonical_string "s3cr3t" (rand_prefix (fun i => i)) "user.status"
         (SortedDict_items sample_params).
Proof.
  assert (Hne : sample_params <> []) by discriminate.
  assert (Hnd : NoDup (map fst sample_params))
    by (repeat constructor; simpl; intuition discriminate).
  split; [exact Hne|]. split; [exact Hnd|]. split; [reflexivity|].
  exact (proj1 (proj2 (proj2
           (api_signature_nonempty_mapping "s3cr3t" (fun i => i) "user.status"
              sample_params Hne Hnd)))).
Defined.
